(** * Fienup phase retrieval ([code/classics.py]) under exact real arithmetic

    The development embeds [fienup_phase_retrieval] as a Rocq function over
    an explicit interpreter state: a heap of NumPy arrays addressed by
    references (so that rebinding [x = y] and the in-place assignment
    [x[indices] = ...] alias exactly as in Python), the global random
    generator, and two observation logs (transforms computed, lines
    printed).  Floating-point numbers are read as real numbers; NumPy's
    shape rules (broadcasting, boolean-mask indexing, empty FFT axes) and the
    exceptions they raise are modelled explicitly.

    The theorems about computed values name the expression the source
    evaluates rather than a simplified form, so that they read the same in
    [float64].  Where real and floating-point arithmetic part (the update at
    [beta = 1], [(1 - beta) * y], the modulus of [mag * exp(1j * theta)],
    the sign of a sum of squares) the expressions are read a second time in
    IEEE 754 binary64, in module [B64]. *)

From Stdlib Require Import PrimFloat SpecFloat FloatOps.
From Stdlib Require Import String Reals Lra Lia ZArith Bool Arith List.
Import ListNotations.

Set Implicit Arguments.

(* ===================================================================== *)
(** ** Scalars: real comparisons and complex numbers *)
(* ===================================================================== *)

Definition Rltb (x y : R) : bool := if Rlt_dec x y then true else false.
Definition Reqb (x y : R) : bool := if Req_dec_T x y then true else false.

(** Python truth value of a number, as used by [np.logical_and] and
    [np.logical_not] on a 0/1 (or boolean) mask. *)
Definition truthy (r : R) : bool := negb (Reqb r 0).

Module Cplx.

Definition C : Type := (R * R)%type.

Definition re (z : C) : R := fst z.
Definition im (z : C) : R := snd z.
Definition RtoC (r : R) : C := (r, 0%R).
Definition Ci : C := (0%R, 1%R).
Definition C0 : C := (0%R, 0%R).

Definition Cadd (a b : C) : C := ((re a + re b)%R, (im a + im b)%R).
Definition Cmul (a b : C) : C :=
  ((re a * re b - im a * im b)%R, (re a * im b + im a * re b)%R).

(** [np.exp] on a complex number. *)
Definition Cexp (z : C) : C :=
  ((exp (re z) * cos (im z))%R, (exp (re z) * sin (im z))%R).

(** [np.abs] on a complex number. *)
Definition Cabs (z : C) : R := sqrt (re z * re z + im z * im z).

(** [np.angle]: the two-argument arctangent of (imaginary, real) part. *)
Definition atan2 (y x : R) : R :=
  if Rltb 0 x then atan (y / x)
  else if Rltb x 0 then
         (if Rltb y 0 then atan (y / x) - PI else atan (y / x) + PI)%R
       else if Rltb 0 y then (PI / 2)%R
            else if Rltb y 0 then (- (PI / 2))%R else 0%R.

Definition angle (z : C) : R := atan2 (im z) (re z).

Definition Csum (l : list C) : C := fold_right Cadd C0 l.

End Cplx.
Import Cplx.

(* ===================================================================== *)
(** ** Exceptions and results *)
(* ===================================================================== *)

Inductive exn : Type :=
| AssertionError (msg : string)
| ValueError (msg : string)
| IndexError (msg : string).

Inductive result (A : Type) : Type :=
| OK (a : A)
| Err (e : exn).
Arguments OK {A} a.
Arguments Err {A} e.

Definition rbind {A B} (r : result A) (k : A -> result B) : result B :=
  match r with OK a => k a | Err e => Err e end.

(* ===================================================================== *)
(** ** Two-dimensional arrays *)
(* ===================================================================== *)

(** An array is a shape [(H, W)] and a row-major buffer; element [(h, w)]
    lives at flat position [h * W + w]. *)
Record ndarray (T : Type) : Type := NdArray {
  shape : nat * nat;
  data : list T
}.

Class Dflt (T : Type) : Type := dflt : T.
#[global] Instance Dflt_R : Dflt R := 0%R.
#[global] Instance Dflt_C : Dflt C := C0.
#[global] Instance Dflt_bool : Dflt bool := false.

Definition size_of (s : nat * nat) : nat := fst s * snd s.

Definition flat {T} `{Dflt T} (a : ndarray T) (k : nat) : T :=
  nth k (data a) dflt.

Definition get {T} `{Dflt T} (a : ndarray T) (h w : nat) : T :=
  flat a (h * snd (shape a) + w).

(** The array of shape [s] whose flat position [k] holds [f k]. *)
Definition tabulate {T} (s : nat * nat) (f : nat -> T) : ndarray T :=
  {| shape := s; data := map f (seq 0 (size_of s)) |}.

Definition shape_eqb (s1 s2 : nat * nat) : bool :=
  (fst s1 =? fst s2) && (snd s1 =? snd s2).

(** *** Broadcasting *)

Definition bdim (a b : nat) : option nat :=
  if a =? b then Some a
  else if a =? 1 then Some b
  else if b =? 1 then Some a
  else None.

Definition bshape (s1 s2 : nat * nat) : option (nat * nat) :=
  match bdim (fst s1) (fst s2), bdim (snd s1) (snd s2) with
  | Some h, Some w => Some (h, w)
  | _, _ => None
  end.

(** Flat position, in an operand of shape [s], of the element that is
    paired with flat position [k] of the broadcast result of shape [s']: an
    axis of length one is read at index 0. *)
Definition bsrc (s s' : nat * nat) (k : nat) : nat :=
  (if fst s =? 1 then 0 else k / snd s') * snd s
  + (if snd s =? 1 then 0 else k mod snd s').

Definition bflat {T} `{Dflt T} (a : ndarray T) (s' : nat * nat) (k : nat) : T :=
  flat a (bsrc (shape a) s' k).

Definition broadcast_error : exn :=
  ValueError "operands could not be broadcast together".

(** Element-wise unary and binary universal functions. *)
Definition map1 {A T} `{Dflt A} (f : A -> T) (a : ndarray A) : ndarray T :=
  tabulate (shape a) (fun k => f (flat a k)).

Definition map2 {A B T} `{Dflt A} `{Dflt B} (f : A -> B -> T)
    (a : ndarray A) (b : ndarray B) : result (ndarray T) :=
  match bshape (shape a) (shape b) with
  | Some s => OK (tabulate s (fun k => f (bflat a s k) (bflat b s k)))
  | None => Err broadcast_error
  end.

(** *** Boolean-mask indexing *)

Definition mask_index_error : exn :=
  IndexError "boolean index did not match indexed array".

(** Flat positions selected by a boolean array, in row-major order. *)
Definition selected (idx : ndarray bool) : list nat :=
  filter (flat idx) (seq 0 (size_of (shape idx))).

(** [a[idx]]: the selected elements as a one-dimensional array. *)
Definition getitem {T} `{Dflt T} (a : ndarray T) (idx : ndarray bool)
    : result (list T) :=
  if shape_eqb (shape a) (shape idx)
  then OK (map (flat a) (selected idx))
  else Err mask_index_error.

(** Walk the buffer positions [ks] in order; a selected position takes the
    next value of [vs], the others keep the element of [a]. *)
Fixpoint put {T} `{Dflt T} (a : ndarray T) (idx : ndarray bool)
    (ks : list nat) (vs : list T) : list T :=
  match ks with
  | [] => []
  | k :: ks' =>
      if flat idx k
      then match vs with
           | v :: vs' => v :: put a idx ks' vs'
           | [] => flat a k :: put a idx ks' []
           end
      else flat a k :: put a idx ks' vs
  end.

Definition count_true (idx : ndarray bool) : nat := length (selected idx).

Definition assign_count_error : exn :=
  ValueError "NumPy boolean array indexing assignment cannot assign input values to the output values".

(** [a[idx] = vs] with a one-dimensional right-hand side: the new contents
    of [a].  A right-hand side of length one is broadcast. *)
Definition setitem {T} `{Dflt T} (a : ndarray T) (idx : ndarray bool)
    (vs : list T) : result (ndarray T) :=
  if shape_eqb (shape a) (shape idx) then
    if length vs =? count_true idx then
      OK {| shape := shape a;
            data := put a idx (seq 0 (size_of (shape a))) vs |}
    else match vs with
         | [v] => OK (tabulate (shape a)
                        (fun k => if flat idx k then v else flat a k))
         | _ => Err assign_count_error
         end
  else Err mask_index_error.

(** [a[idx] = v] with a scalar right-hand side. *)
Definition setitem_scalar {T} `{Dflt T} (a : ndarray T) (idx : ndarray bool)
    (v : T) : result (ndarray T) :=
  if shape_eqb (shape a) (shape idx)
  then OK (tabulate (shape a) (fun k => if flat idx k then v else flat a k))
  else Err mask_index_error.

(** *** One-dimensional arithmetic (on the results of [a[idx]]) *)

Definition scale1d (c : R) (v : list R) : list R := map (Rmult c) v.

Fixpoint zip_with {A B T} (f : A -> B -> T) (u : list A) (v : list B) : list T :=
  match u, v with
  | a :: u', b :: v' => f a b :: zip_with f u' v'
  | _, _ => []
  end.

Definition sub1d (u v : list R) : result (list R) :=
  if length u =? length v then OK (zip_with Rminus u v)
  else match u, v with
       | [a], _ => OK (map (fun b => (a - b)%R) v)
       | _, [b] => OK (map (fun a => (a - b)%R) u)
       | _, _ => Err broadcast_error
       end.

Definition Rsum (l : list R) : R := fold_right Rplus 0%R l.

(** [np.sum(v ** 2)] for a one-dimensional [v]. *)
Definition sum_sq (v : list R) : R := Rsum (map (fun r => (r ^ 2)%R) v).

(** [np.mean] over all elements. *)
Definition np_mean (a : ndarray R) : R :=
  (Rsum (map (flat a) (seq 0 (size_of (shape a)))) / INR (size_of (shape a)))%R.

(** *** Array constructors and the discrete Fourier transform *)

Definition np_zeros (s : nat * nat) : ndarray R := tabulate s (fun _ => 0%R).
Definition np_ones (s : nat * nat) : ndarray R := tabulate s (fun _ => 1%R).

(** Phase of the DFT kernel for output position [q] and input position [p]
    of an [H x W] array: [2 pi (k m / H + l n / W)]. *)
Definition dft_phase (s : nat * nat) (q p : nat) : R :=
  (2 * PI * (INR (q / snd s) * INR (p / snd s) / INR (fst s)
             + INR (q mod snd s) * INR (p mod snd s) / INR (snd s)))%R.

Definition dft2 (sgn : R) (a : ndarray C) : ndarray C :=
  tabulate (shape a)
    (fun q => Csum (map (fun p => Cmul (flat a p)
                                   (Cexp (Cmul Ci (RtoC (sgn * dft_phase (shape a) q p)))))
                        (seq 0 (size_of (shape a))))).

Definition fft_points_error : exn :=
  ValueError "Invalid number of FFT data points (0) specified.".

Definition nonempty (s : nat * nat) : bool :=
  negb ((fst s =? 0) || (snd s =? 0)).

(** [np.fft.fft2] and [np.fft.ifft2] (value part); both refuse an axis of
    length zero. *)
Definition fft2 (a : ndarray C) : result (ndarray C) :=
  if nonempty (shape a) then OK (dft2 (-1) a) else Err fft_points_error.

Definition ifft2 (a : ndarray C) : result (ndarray C) :=
  if nonempty (shape a)
  then OK (map1 (fun z => Cmul (RtoC (1 / INR (size_of (shape a)))) z) (dft2 1 a))
  else Err fft_points_error.

(** NumPy functions used by the routine, on whole arrays. *)
Definition np_real (a : ndarray C) : ndarray R := map1 re a.
Definition np_abs (a : ndarray C) : ndarray R := map1 Cabs a.
Definition np_angle (a : ndarray C) : ndarray R := map1 angle a.

(** [np.exp(1j * phi)]. *)
Definition np_exp_1j (phi : ndarray R) : ndarray C :=
  map1 Cexp (map1 (fun r => Cmul Ci (RtoC r)) phi).

(** [mag * z] for a real array [mag] and a complex array [z]. *)
Definition mul_real_complex (m : ndarray R) (z : ndarray C) : result (ndarray C) :=
  map2 (fun r c => Cmul (RtoC r) c) m z.

Definition np_less (a : ndarray R) (t : R) : ndarray bool :=
  map1 (fun r => Rltb r t) a.
Definition np_logical_and (b : ndarray bool) (m : ndarray R) : result (ndarray bool) :=
  map2 (fun p q => p && truthy q) b m.
Definition np_logical_not (m : ndarray R) : ndarray bool :=
  map1 (fun q => negb (truthy q)) m.
Definition np_logical_or (a b : ndarray bool) : result (ndarray bool) :=
  map2 orb a b.

(** [np.logical_or(np.logical_and(y < threshhold, mask), np.logical_not(mask))] *)
Definition violations (y : ndarray R) (threshhold : R) (mask : ndarray R)
    : result (ndarray bool) :=
  rbind (np_logical_and (np_less y threshhold) mask)
        (fun inside => np_logical_or inside (np_logical_not mask)).

(** [np.mean((np.abs(x_hat) - mag) ** 2)] *)
Definition magnitude_error (x_hat : ndarray C) (mag : ndarray R) : result R :=
  rbind (map2 Rminus (np_abs x_hat) mag)
        (fun d => OK (np_mean (map1 (fun r => (r ^ 2)%R) d))).

(* ===================================================================== *)
(** ** Interpreter state and the state-and-exception monad *)
(* ===================================================================== *)

Definition loc : Type := nat.

(** Lines written by [print]. *)
Inductive event : Type :=
| PrintStep (i : nat) (steps : Z)       (* print("step", i, "of", steps) *)
| PrintOpen (n : nat).                  (* print(n, "open constraints") *)

Record state : Type := State {
  heap : list (ndarray R);     (* real arrays, addressed by reference *)
  rng : nat -> R;              (* future outputs of np.random, each in [0,1) *)
  transforms : nat;            (* calls of fft2 / ifft2 made so far *)
  stdout : list event
}.

Definition M (A : Type) : Type := state -> state * result A.

Definition ret {A} (a : A) : M A := fun st => (st, OK a).
Definition raise {A} (e : exn) : M A := fun st => (st, Err e).
Definition bind {A B} (m : M A) (k : A -> M B) : M B :=
  fun st => match m st with
            | (st', OK a) => k a st'
            | (st', Err e) => (st', Err e)
            end.
Definition lift {A} (r : result A) : M A := fun st => (st, r).

Declare Scope monad_scope.
Delimit Scope monad_scope with monad.
Notation "x <- m ;; k" := (bind m (fun x => k))
  (at level 61, m at next level, right associativity) : monad_scope.
Notation "m ;;; k" := (bind m (fun _ => k))
  (at level 61, right associativity) : monad_scope.
Open Scope monad_scope.

Definition empty_array : ndarray R := {| shape := (0, 0); data := [] |}.

Fixpoint list_set {A} (l : list A) (n : nat) (v : A) : list A :=
  match l, n with
  | [], _ => []
  | _ :: t, O => v :: t
  | h :: t, S n' => h :: list_set t n' v
  end.

(** Bind a freshly created array to a new reference. *)
Definition alloc (a : ndarray R) : M loc :=
  fun st => ({| heap := heap st ++ [a]; rng := rng st;
                transforms := transforms st; stdout := stdout st |},
             OK (length (heap st))).

Definition load (l : loc) : M (ndarray R) :=
  fun st => (st, OK (nth l (heap st) empty_array)).

(** Overwrite, in place, the contents of the array a reference points to. *)
Definition store (l : loc) (a : ndarray R) : M unit :=
  fun st => ({| heap := list_set (heap st) l a; rng := rng st;
                transforms := transforms st; stdout := stdout st |},
             OK tt).

Definition tick : M unit :=
  fun st => ({| heap := heap st; rng := rng st;
                transforms := S (transforms st); stdout := stdout st |},
             OK tt).

Definition print (e : event) : M unit :=
  fun st => ({| heap := heap st; rng := rng st;
                transforms := transforms st; stdout := stdout st ++ [e] |},
             OK tt).

Definition when (b : bool) (m : M unit) : M unit := if b then m else ret tt.

Definition assert (b : bool) (msg : string) : M unit :=
  if b then ret tt else raise (AssertionError msg).

(** [np.random.rand] at shape [s]: consumes [size_of s] outputs of the generator. *)
Definition np_random_rand (s : nat * nat) : M (ndarray R) :=
  fun st => ({| heap := heap st; rng := fun k => rng st (k + size_of s);
                transforms := transforms st; stdout := stdout st |},
             OK (tabulate s (rng st))).

Definition np_fft_ifft2 (a : ndarray C) : M (ndarray C) :=
  tick ;;; lift (ifft2 a).

Definition np_fft_fft2 (a : ndarray R) : M (ndarray C) :=
  tick ;;; lift (fft2 (map1 RtoC a)).

(* ===================================================================== *)
(** ** The routine *)
(* ===================================================================== *)

Record args : Type := Args {
  mag : loc;
  init_phi : option loc;       (* None: sample a random phase *)
  mask : option loc;           (* None: all-ones mask *)
  threshhold : R;
  beta : R;
  steps : Z;
  mode : string;
  verbose : bool
}.

(** Local variables alive across loop iterations. *)
Record locals : Type := Locals {
  l_mask : loc;
  y_hat : ndarray C;
  x : loc;
  x_p : option loc;
  errors : list R
}.

Definition is_mode (a : args) (m : string) : bool := String.eqb (mode a) m.

Definition msg_beta : string := "step size must be a positive number".
Definition msg_steps : string := "steps must be a positive number".
Definition msg_mode : string :=
  "mode must be 'input-output', 'output-output' or 'hybrid'".
Definition msg_shape : string := "mask and mag must have same shape".

(** Lines 39-61: checks and initialisation.  The list [constraint_numbers]
    of line 60 is never used and is left out. *)
Definition fienup_setup (a : args) : M locals :=
  assert (Rltb 0 (beta a)) msg_beta ;;;
  assert (0 <? steps a)%Z msg_steps ;;;
  assert (is_mode a "input-output" || is_mode a "output-output"
          || is_mode a "hybrid" || is_mode a "gs") msg_mode ;;;
  magv <- load (mag a) ;;
  mask <- match mask a with
          | None => alloc (np_ones (shape magv))
          | Some m => ret m
          end ;;
  maskv <- load mask ;;
  assert (shape_eqb (shape magv) (shape maskv)) msg_shape ;;;
  (* sample random phase and initialize image x *)
  init_phi <- match init_phi a with
              | None => r <- np_random_rand (shape magv) ;;
                        alloc (map1 (Rmult (2 * PI)) r)
              | Some p => ret p
              end ;;
  phiv <- load init_phi ;;
  y_hat <- lift (mul_real_complex magv (np_exp_1j phiv)) ;;
  x <- alloc (np_zeros (shape magv)) ;;
  ret {| l_mask := mask; y_hat := y_hat; x := x; x_p := None; errors := [] |}.

(** Lines 65-111: one pass through the body of the main loop. *)
Definition fienup_step (a : args) (i : nat) (l : locals) : M locals :=
  (* show progress *)
  when ((i mod 100 =? 0) && verbose a) (print (PrintStep i (steps a))) ;;;
  (* inverse fourier transform *)
  yc <- np_fft_ifft2 (y_hat l) ;;
  y <- alloc (np_real yc) ;;
  (* previous iterate *)
  let x_p := match x_p l with None => y | Some _ => x l end in
  (* updates for elements that satisfy object domain constraints *)
  let x := if is_mode a "output-output" || is_mode a "hybrid" || is_mode a "gs"
           then y else x l in
  (* find elements that violate object domain constraints or are not masked *)
  yv <- load y ;;
  maskv <- load (l_mask l) ;;
  indices <- lift (violations yv (threshhold a) maskv) ;;
  (* compute signal domain error (for all except gs) *)
  errors <- (if negb (is_mode a "gs")
             then xv <- load x ;;
                  sel <- lift (getitem xv indices) ;;
                  ret (errors l ++ [sum_sq sel])
             else ret (errors l)) ;;
  when ((i mod 100 =? 0) && verbose a) (print (PrintOpen (count_true indices))) ;;;
  (* updates for elements that violate object domain constraints *)
  (if is_mode a "hybrid" || is_mode a "input-output" then
     xpv <- load x_p ;;
     xp_sel <- lift (getitem xpv indices) ;;
     yv <- load y ;;
     y_sel <- lift (getitem yv indices) ;;
     rhs <- lift (sub1d xp_sel (scale1d (beta a) y_sel)) ;;
     xv <- load x ;;
     xv' <- lift (setitem xv indices rhs) ;;
     store x xv'
   else if is_mode a "output-output" then
     yv <- load y ;;
     y_sel <- lift (getitem yv indices) ;;
     yv <- load y ;;
     y_sel' <- lift (getitem yv indices) ;;
     rhs <- lift (sub1d y_sel (scale1d (beta a) y_sel')) ;;
     xv <- load x ;;
     xv' <- lift (setitem xv indices rhs) ;;
     store x xv'
   else if is_mode a "gs" then
     xv <- load x ;;
     xv' <- lift (setitem_scalar xv indices 0%R) ;;
     store x xv'
   else ret tt) ;;;
  (* fourier transform *)
  xv <- load x ;;
  x_hat <- np_fft_fft2 xv ;;
  (* compute magn error (only meaningful for gs) *)
  errors <- (if is_mode a "gs"
             then magv <- load (mag a) ;;
                  e <- lift (magnitude_error x_hat magv) ;;
                  ret (errors ++ [e])
             else ret errors) ;;
  (* satisfy fourier domain constraints *)
  magv <- load (mag a) ;;
  y_hat <- lift (mul_real_complex magv (np_exp_1j (np_angle x_hat))) ;;
  ret {| l_mask := l_mask l; y_hat := y_hat; x := x; x_p := Some x_p;
         errors := errors |}.

(** [n] passes of the loop body, the first one with index [i]. *)
Fixpoint fienup_loop (a : args) (n : nat) (i : nat) (l : locals) : M locals :=
  match n with
  | O => ret l
  | S n' => l' <- fienup_step a i l ;; fienup_loop a n' (S i) l'
  end.

(** The routine cut after [n] iterations: [for i in range(1, n + 1)]. *)
Definition fienup_run (n : nat) (a : args) : M locals :=
  l <- fienup_setup a ;; fienup_loop a n 1 l.

(** [fienup_phase_retrieval]: returns the reference of [x] and the error
    trace. *)
Definition fienup_phase_retrieval (a : args) : M (loc * list R) :=
  l <- fienup_run (Z.to_nat (steps a)) a ;; ret (x l, errors l).

(* ===================================================================== *)
(** ** Vocabulary for the statements *)
(* ===================================================================== *)

Definition valid_mode (a : args) : Prop :=
  mode a = "input-output"%string \/ mode a = "output-output"%string
  \/ mode a = "hybrid"%string \/ mode a = "gs"%string.

(** The condition of line 79: the modes that rebind [x] to [y]. *)
Definition takes_baseline (a : args) : bool :=
  is_mode a "output-output" || is_mode a "hybrid" || is_mode a "gs".

(** Right-hand side of the assignment of lines 95-100 at one pixel, from the
    values of [x_p] and [y] there. *)
Definition correction (a : args) (xp y : R) : R :=
  if is_mode a "hybrid" || is_mode a "input-output" then (xp - beta a * y)%R
  else if is_mode a "output-output" then (y - beta a * y)%R
  else 0%R.

(** Contents of the array a reference points to. *)
Definition deref (st : state) (l : loc) : ndarray R := nth l (heap st) empty_array.

(** References held by the caller are bound in the heap. *)
Definition valid_ref (st : state) (l : loc) : Prop := l < length (heap st).

Definition valid_opt_ref (st : state) (o : option loc) : Prop :=
  match o with Some l => valid_ref st l | None => True end.

Definition valid_args (st : state) (a : args) : Prop :=
  valid_ref st (mag a) /\ valid_opt_ref st (init_phi a) /\ valid_opt_ref st (mask a).

(** The same interpreter state with another random generator. *)
Definition with_rng (r : nat -> R) (st : state) : state :=
  {| heap := heap st; rng := r; transforms := transforms st; stdout := stdout st |}.

(** The violation mask, element by element, when the mask broadcasts to the
    shape of [y]. *)
Definition violates (y : ndarray R) (t : R) (m : ndarray R) (k : nat) : bool :=
  (Rltb (flat y k) t && truthy (bflat m (shape y) k))
  || negb (truthy (bflat m (shape y) k)).

(** What the loop relies on between iterations: the caller's arrays sit
    below the working array [x], mask and magnitudes have one shape, and the
    magnitudes broadcast to the shape of [y_hat]. *)
Definition Inv (a : args) (l : locals) (st : state) : Prop :=
  valid_mode a /\
  mag a < x l /\ l_mask l < x l /\ x l < length (heap st) /\
  shape (deref st (l_mask l)) = shape (deref st (mag a)) /\
  bshape (shape (deref st (mag a))) (shape (y_hat l)) = Some (shape (y_hat l)) /\
  (takes_baseline a = false -> shape (deref st (x l)) = shape (deref st (mag a))) /\
  (x_p l <> None -> shape (deref st (x l)) = shape (y_hat l)).

(** The additional conditions under which a pass of the loop cannot raise. *)
Definition Ready (a : args) (l : locals) (st : state) : Prop :=
  Inv a l st /\
  nonempty (shape (y_hat l)) = true /\
  (takes_baseline a = false -> shape (y_hat l) = shape (deref st (mag a))).

(** Shape of [y_hat] as line 54 builds it: the magnitudes broadcast against
    the initial phase (a sampled phase has the shape of the magnitudes). *)
Definition y_hat_shape (st : state) (a : args) : option (nat * nat) :=
  match init_phi a with
  | None => Some (shape (deref st (mag a)))
  | Some p => bshape (shape (deref st (mag a))) (shape (deref st p))
  end.

(** A supplied mask has the shape of the magnitudes. *)
Definition mask_fits (st : state) (a : args) : Prop :=
  forall m, mask a = Some m -> shape (deref st m) = shape (deref st (mag a)).

(* ===================================================================== *)
(** ** Concrete calls used to exercise the statements *)
(* ===================================================================== *)

Module Example.

(** A one-pixel problem: magnitude 1, phase 0. *)
Definition mag1 : ndarray R := {| shape := (1, 1); data := [1%R] |}.
Definition phi1 : ndarray R := {| shape := (1, 1); data := [0%R] |}.
(** A mask that puts the pixel outside the support. *)
Definition mask1 : ndarray R := {| shape := (1, 1); data := [0%R] |}.
(** A phase of another shape, (1, 2), that broadcasts against (1, 1). *)
Definition phi_wide : ndarray R := {| shape := (1, 2); data := [0%R; 0%R] |}.
(** A phase of shape (2, 2) and magnitudes of shape (3, 3): no broadcast. *)
Definition phi22 : ndarray R := {| shape := (2, 2); data := [0%R; 0%R; 0%R; 0%R] |}.
Definition mag33 : ndarray R := {| shape := (3, 3); data := repeat 1%R 9 |}.

(** The caller's heap: references 0..5. *)
Definition st0 : state :=
  {| heap := [mag1; phi1; mask1; phi_wide; phi22; mag33];
     rng := fun _ => 0%R; transforms := 0; stdout := [] |}.

(** [fienup_phase_retrieval(mag1, phi1, mask1, 0, b, 1, m)] *)
Definition call (m : string) (b : R) : args :=
  {| mag := 0; init_phi := Some 1; mask := Some 2; threshhold := 0%R;
     beta := b; steps := 1%Z; mode := m; verbose := false |}.

(** The same call with the wide phase. *)
Definition call_wide (m : string) : args :=
  {| mag := 0; init_phi := Some 3; mask := Some 2; threshhold := 0%R;
     beta := 1%R; steps := 1%Z; mode := m; verbose := false |}.

(** Magnitudes (3, 3) with a phase (2, 2), default mask. *)
Definition call_clash : args :=
  {| mag := 5; init_phi := Some 4; mask := None; threshhold := 0%R;
     beta := 1%R; steps := 1%Z; mode := "hybrid"; verbose := false |}.

End Example.


(** A computation that leaves the first [n] heap cells as they are, whether
    it returns or raises, and whose result, if any, satisfies [Q]. *)
Definition grows {A} (n : nat) (m : M A) (Q : A -> Prop) : Prop :=
  forall st, n <= length (heap st) ->
    n <= length (heap (fst (m st))) /\
    firstn n (heap (fst (m st))) = firstn n (heap st) /\
    forall v, snd (m st) = OK v -> Q v.




(** The call [a] in another mode, everything else unchanged. *)
Definition set_mode (m : string) (a : args) : args :=
  {| mag := mag a; init_phi := init_phi a; mask := mask a;
     threshhold := threshhold a; beta := beta a; steps := steps a;
     mode := m; verbose := verbose a |}.

Module EmptyExample.

(** A caller whose only array is empty, of shape (0, 3). *)
Definition mag0 : ndarray R := {| shape := (0, 3); data := [] |}.

Definition st0 : state :=
  {| heap := [mag0]; rng := fun _ => 0%R; transforms := 0; stdout := [] |}.

(** [fienup_phase_retrieval(mag0, steps=5)] *)
Definition call : args :=
  {| mag := 0; init_phi := None; mask := None; threshhold := 0%R;
     beta := (8 / 10)%R; steps := 5%Z; mode := "hybrid"; verbose := false |}.

End EmptyExample.

(* ===================================================================== *)
(** ** IEEE 754 binary64, the arithmetic NumPy performs on [float64] *)
(* ===================================================================== *)

(** The embedding above reads [float64] as real numbers, which is exact for
    shapes, exceptions, aliasing, counts and for every value written as the
    expression the source evaluates.  It is not exact for identities of real
    arithmetic: in binary64 [y - beta * y] is not [(1 - beta) * y], and
    [inf - inf] is NaN.  The expressions of the source on which a statement
    turns are therefore read a second time here, one pixel at a time, in
    binary64 as the Standard Library specifies it ([SpecFloat], precision
    53, round to nearest with ties to even). *)
Module B64.

Definition binary64 : Type := spec_float.

Definition prec : Z := 53.
Definition emax : Z := 1024.

(** A float literal as a binary64 number. *)
Definition lit (f : float) : binary64 := Prim2SF f.

Definition zero : binary64 := S754_zero false.
Definition one : binary64 := S754_finite false 4503599627370496 (-52).

Definition add : binary64 -> binary64 -> binary64 := SFadd prec emax.
Definition sub : binary64 -> binary64 -> binary64 := SFsub prec emax.
Definition mul : binary64 -> binary64 -> binary64 := SFmul prec emax.
Definition div : binary64 -> binary64 -> binary64 := SFdiv prec emax.
Definition ltb : binary64 -> binary64 -> bool := SFltb.
Definition eqb : binary64 -> binary64 -> bool := SFeqb.



Definition is_nan (x : binary64) : bool :=
  match x with S754_nan => true | _ => false end.

(** Python truth value of a number: everything but [0.0] and [-0.0]. *)
Definition truthy (m : binary64) : bool := negb (eqb m zero).

(** Lines 84-85 at one pixel:
    [(y < threshhold and mask) or (not mask)]. *)
Definition violates (y t m : binary64) : bool :=
  (ltb y t && truthy m) || negb (truthy m).

(** Lines 95-100 at one pixel: the value assigned to [x[indices]]. *)
Definition correction (mode : string) (beta xp y : binary64) : binary64 :=
  if String.eqb mode "hybrid" || String.eqb mode "input-output"
  then sub xp (mul beta y)
  else if String.eqb mode "output-output" then sub y (mul beta y)
  else zero.

(** Line 89: [np.sum(v ** 2)] over the selected entries.  (Line 107 is such
    a sum divided by the number of entries.) *)
Definition sum_sq (v : list binary64) : binary64 :=
  fold_right add zero (map (fun r => mul r r) v).

(** The output-output update as the specification words it,
    [(1 - beta) * y]. *)
Definition spec_output_output (beta y : binary64) : binary64 :=
  mul (sub one beta) y.



End B64.


(** The lines printed by a verbose run: in iteration [100 j], for
    [j = 1, 2, ...], the step line followed by the number [c_j] of open
    constraints. *)
Definition progress (a : args) (counts : list nat) : list event :=
  concat (map (fun jc => [PrintStep (100 * fst jc) (steps a); PrintOpen (snd jc)])
              (combine (seq 1 (length counts)) counts)).

(* ===================================================================== *)
(** ** Facts about arrays *)
(* ===================================================================== *)

Section ArrayFacts.

Context {T : Type} `{Dflt T}.

Lemma flat_tabulate (s : nat * nat) (f : nat -> T) (k : nat) :
  k < size_of s -> flat (tabulate s f) k = f k.
Proof.
  intros Hk. unfold flat, tabulate. cbn [data].
  rewrite (nth_indep _ dflt (f 0)) by (rewrite length_map, length_seq; exact Hk).
  rewrite map_nth, seq_nth by exact Hk. reflexivity.
Qed.

Lemma tabulate_ext (s : nat * nat) (f g : nat -> T) :
  (forall k, k < size_of s -> f k = g k) -> tabulate s f = tabulate s g.
Proof.
  intros E. unfold tabulate. f_equal. apply map_ext_in.
  intros k Hk. apply in_seq in Hk. apply E. lia.
Qed.

Lemma put_filter (a : ndarray T) (idx : ndarray bool) (g : nat -> T) (ks : list nat) :
  put a idx ks (map g (filter (flat idx) ks))
  = map (fun k => if flat idx k then g k else flat a k) ks.
Proof.
  induction ks as [|k ks IH]; cbn [put filter map]; [reflexivity|].
  destruct (flat idx k); cbn [map]; now rewrite IH.
Qed.

End ArrayFacts.

Lemma shape_eqb_eq (s1 s2 : nat * nat) : shape_eqb s1 s2 = true <-> s1 = s2.
Proof.
  destruct s1 as [h1 w1], s2 as [h2 w2]. unfold shape_eqb. cbn [fst snd].
  rewrite andb_true_iff, !Nat.eqb_eq. split.
  - intros [-> ->]. reflexivity.
  - intros E. inversion E. auto.
Qed.

Lemma shape_eqb_refl (s : nat * nat) : shape_eqb s s = true.
Proof. now apply shape_eqb_eq. Qed.

Lemma bdim_refl (n : nat) : bdim n n = Some n.
Proof. unfold bdim. now rewrite Nat.eqb_refl. Qed.

Lemma bshape_refl (s : nat * nat) : bshape s s = Some s.
Proof. destruct s. unfold bshape. cbn [fst snd]. now rewrite !bdim_refl. Qed.

Lemma bdim_sym (a b n : nat) : bdim a b = Some n -> bdim b a = Some n.
Proof.
  unfold bdim.
  destruct (a =? b) eqn:E1; [apply Nat.eqb_eq in E1; subst; now rewrite Nat.eqb_refl|].
  rewrite Nat.eqb_sym in E1. rewrite E1.
  destruct (a =? 1) eqn:E2, (b =? 1) eqn:E3; try discriminate; auto.
  apply Nat.eqb_eq in E2, E3. subst. now rewrite Nat.eqb_refl in E1.
Qed.

Lemma bdim_absorb (a b n : nat) : bdim a b = Some n -> bdim a n = Some n.
Proof.
  unfold bdim.
  destruct (a =? b) eqn:E1.
  - intros E; inversion E; subst. now rewrite Nat.eqb_refl.
  - destruct (a =? 1) eqn:E2.
    + intros E; inversion E; subst. now rewrite E1.
    + destruct (b =? 1); [|discriminate].
      intros E; inversion E; subst. now rewrite Nat.eqb_refl.
Qed.

Lemma bshape_sym (s1 s2 s : nat * nat) : bshape s1 s2 = Some s -> bshape s2 s1 = Some s.
Proof.
  unfold bshape.
  destruct (bdim (fst s1) (fst s2)) eqn:E1; [|discriminate].
  destruct (bdim (snd s1) (snd s2)) eqn:E2; [|discriminate].
  intros E. now rewrite (bdim_sym _ _ E1), (bdim_sym _ _ E2).
Qed.

(** The broadcast result absorbs its operands. *)
Lemma bshape_absorb (s1 s2 s : nat * nat) : bshape s1 s2 = Some s -> bshape s1 s = Some s.
Proof.
  unfold bshape.
  destruct (bdim (fst s1) (fst s2)) eqn:E1; [|discriminate].
  destruct (bdim (snd s1) (snd s2)) eqn:E2; [|discriminate].
  intros E. inversion E; subst. cbn [fst snd].
  now rewrite (bdim_absorb _ _ E1), (bdim_absorb _ _ E2).
Qed.

Lemma bshape_none_sym (s1 s2 : nat * nat) : bshape s1 s2 = None -> bshape s2 s1 = None.
Proof.
  intros E. destruct (bshape s2 s1) eqn:E'; [|reflexivity].
  apply bshape_sym in E'. congruence.
Qed.

Lemma bsrc_same (s : nat * nat) (k : nat) : k < size_of s -> bsrc s s k = k.
Proof.
  destruct s as [h w]. unfold size_of, bsrc. cbn [fst snd]. intros Hk.
  assert (Hw : w <> 0) by (intros ->; lia).
  pose proof (Nat.div_mod_eq k w) as D.
  pose proof (Nat.mod_upper_bound k w Hw) as U.
  destruct (h =? 1) eqn:Eh; destruct (w =? 1) eqn:Ew;
    try apply Nat.eqb_eq in Eh; try apply Nat.eqb_eq in Ew; subst.
  - lia.
  - assert (k / w = 0) by (apply Nat.div_small; lia). lia.
  - rewrite Nat.div_1_r. lia.
  - lia.
Qed.

Section Map2Facts.

Context {A B T : Type} `{Dflt A} `{Dflt B}.

Lemma map2_same_shape (f : A -> B -> T) (a : ndarray A) (b : ndarray B) :
  shape a = shape b ->
  map2 f a b = OK (tabulate (shape a) (fun k => f (flat a k) (flat b k))).
Proof.
  intros E. unfold map2. rewrite <- E, bshape_refl. f_equal.
  apply tabulate_ext. intros k Hk. unfold bflat.
  rewrite <- E, bsrc_same by exact Hk. reflexivity.
Qed.

Lemma map2_shape (f : A -> B -> T) (a : ndarray A) (b : ndarray B) (c : ndarray T) :
  map2 f a b = OK c -> bshape (shape a) (shape b) = Some (shape c).
Proof.
  unfold map2. destruct (bshape (shape a) (shape b)); [|discriminate].
  intros E. inversion E. reflexivity.
Qed.

Lemma map2_ok (f : A -> B -> T) (a : ndarray A) (b : ndarray B) (s : nat * nat) :
  bshape (shape a) (shape b) = Some s ->
  map2 f a b = OK (tabulate s (fun k => f (bflat a s k) (bflat b s k))).
Proof. unfold map2. now intros ->. Qed.

End Map2Facts.

Lemma zip_with_map {K A B T} (f : A -> B -> T) (g : K -> A) (h : K -> B) (l : list K) :
  zip_with f (map g l) (map h l) = map (fun k => f (g k) (h k)) l.
Proof. induction l; cbn; [reflexivity|now f_equal]. Qed.

Lemma sub1d_selected (u v : nat -> R) (l : list nat) :
  sub1d (map u l) (map v l) = OK (map (fun k => (u k - v k)%R) l).
Proof.
  unfold sub1d. rewrite !length_map, Nat.eqb_refl. now rewrite zip_with_map.
Qed.

(** Assigning through a mask the values computed, position by position,
    from arrays read through the same mask is a point-wise update. *)
Lemma setitem_selected (a : ndarray R) (idx : ndarray bool) (g : nat -> R) :
  shape a = shape idx ->
  setitem a idx (map g (selected idx))
  = OK (tabulate (shape a) (fun k => if flat idx k then g k else flat a k)).
Proof.
  intros E. unfold setitem, count_true.
  rewrite E, shape_eqb_refl, length_map, Nat.eqb_refl.
  f_equal. unfold tabulate. f_equal. unfold selected. apply put_filter.
Qed.

Lemma getitem_ok {T} `{Dflt T} (a : ndarray T) (idx : ndarray bool) (v : list T) :
  getitem a idx = OK v -> shape a = shape idx /\ v = map (flat a) (selected idx).
Proof.
  unfold getitem. destruct (shape_eqb (shape a) (shape idx)) eqn:E; [|discriminate].
  apply shape_eqb_eq in E. intros E'. inversion E'. auto.
Qed.

Lemma getitem_same_shape {T} `{Dflt T} (a : ndarray T) (idx : ndarray bool) :
  shape a = shape idx -> getitem a idx = OK (map (flat a) (selected idx)).
Proof. intros E. unfold getitem. now rewrite E, shape_eqb_refl. Qed.

Lemma setitem_scalar_ok {T} `{Dflt T} (a : ndarray T) (idx : ndarray bool) (v : T) (a' : ndarray T) :
  setitem_scalar a idx v = OK a' ->
  shape a = shape idx /\
  a' = tabulate (shape a) (fun k => if flat idx k then v else flat a k).
Proof.
  unfold setitem_scalar. destruct (shape_eqb (shape a) (shape idx)) eqn:E; [|discriminate].
  apply shape_eqb_eq in E. intros E'. inversion E'. auto.
Qed.

(* ===================================================================== *)
(** ** Facts about the heap *)
(* ===================================================================== *)

Lemma length_list_set {A} (l : list A) (n : nat) (v : A) :
  length (list_set l n v) = length l.
Proof.
  revert n; induction l as [|h t IH]; intros [|n]; cbn; auto.
Qed.

Lemma nth_list_set_eq {A} (l : list A) (n : nat) (v d : A) :
  n < length l -> nth n (list_set l n v) d = v.
Proof.
  revert n; induction l as [|h t IH]; intros [|n] Hn; cbn in *; try lia; auto.
  apply IH. lia.
Qed.

Lemma nth_list_set_neq {A} (l : list A) (n m : nat) (v d : A) :
  n <> m -> nth m (list_set l n v) d = nth m l d.
Proof.
  revert n m; induction l as [|h t IH]; intros [|n] [|m] Hn; cbn; auto; try lia.
Qed.

Lemma list_set_last {A} (l : list A) (v w : A) :
  list_set (l ++ [v]) (length l) w = l ++ [w].
Proof. induction l as [|h t IH]; cbn; [reflexivity|now rewrite IH]. Qed.

Lemma list_set_app_l {A} (l t : list A) (n : nat) (v : A) :
  n < length l -> list_set (l ++ t) n v = list_set l n v ++ t.
Proof.
  revert n; induction l as [|h l IH]; intros [|n] Hn; cbn in *; try lia; auto.
  rewrite IH by lia. reflexivity.
Qed.

Lemma firstn_list_set {A} (l : list A) (n m : nat) (v : A) :
  n <= m -> firstn n (list_set l m v) = firstn n l.
Proof.
  revert n m; induction l as [|h t IH]; intros [|n] [|m] Hn; cbn; auto; try lia.
  rewrite IH by lia. reflexivity.
Qed.

Lemma nth_snoc_last {A} (l : list A) (v d : A) : nth (length l) (l ++ [v]) d = v.
Proof. apply nth_middle. Qed.

Lemma nth_snoc_old {A} (l : list A) (v d : A) (n : nat) :
  n < length l -> nth n (l ++ [v]) d = nth n l d.
Proof. intros Hn. now apply app_nth1. Qed.

(* ===================================================================== *)
(** ** Symbolic execution of monadic code *)
(* ===================================================================== *)

Lemma bind_ok_inv {A B} (m : M A) (k : A -> M B) (st st' : state) (b : B) :
  bind m k st = (st', OK b) ->
  exists a st1, m st = (st1, OK a) /\ k a st1 = (st', OK b).
Proof.
  unfold bind. destruct (m st) as [st1 [a|e]]; [|discriminate].
  intros E. now exists a, st1.
Qed.

Lemma bind_ok {A B} (m : M A) (k : A -> M B) (st st1 : state) (a : A) :
  m st = (st1, OK a) -> bind m k st = k a st1.
Proof. unfold bind. now intros ->. Qed.

Lemma bind_err {A B} (m : M A) (k : A -> M B) (st st1 : state) (e : exn) :
  m st = (st1, Err e) -> bind m k st = (st1, Err e).
Proof. unfold bind. now intros ->. Qed.

Lemma when_print (b : bool) (e : event) (st : state) :
  when b (print e) st
  = ({| heap := heap st; rng := rng st; transforms := transforms st;
        stdout := stdout st ++ (if b then [e] else []) |}, OK tt).
Proof.
  destruct st, b; cbn; [reflexivity|]. now rewrite app_nil_r.
Qed.

Lemma is_mode_of (a : args) (m s : string) : mode a = m -> is_mode a s = String.eqb m s.
Proof. unfold is_mode. now intros ->. Qed.

(** Decide the mode tests once the mode string is known. *)
Ltac decide_modes Hm :=
  rewrite ?(is_mode_of _ _ Hm) in *;
  repeat match goal with
         | H : context [String.eqb ?u ?v] |- _ =>
             let b := eval vm_compute in (String.eqb u v) in
             change (String.eqb u v) with b in H
         | |- context [String.eqb ?u ?v] =>
             let b := eval vm_compute in (String.eqb u v) in
             change (String.eqb u v) with b
         end.

Ltac mcbn_in H :=
  cbn [bind ret lift load alloc store tick print raise np_random_rand
       np_fft_ifft2 np_fft_fft2 heap rng transforms stdout
       orb andb negb fst snd] in H.

Ltac mcbn :=
  cbn [bind ret lift load alloc store tick print raise np_random_rand
       np_fft_ifft2 np_fft_fft2 heap rng transforms stdout
       orb andb negb fst snd].

(** Run a computation known to return normally: every fallible step is
    split, the raising branch discarded. *)
Ltac minv H :=
  unfold bind in H;
  repeat first
    [ rewrite when_print in H
    | rewrite nth_snoc_last in H
    | match type of H with
      | context [assert ?b _ _] =>
          let A := fresh "A" in
          destruct b eqn:A; cbn [assert raise ret] in H; [|discriminate H]
      end
    | progress mcbn_in H
    | match type of H with
      | context [match ?r with OK _ => _ | Err _ => _ end] =>
          let E := fresh "E" in destruct r eqn:E; [|discriminate H]
      end ].

(** Normalise what the array operations returned. *)
Ltac mfin :=
  repeat match goal with
    | H : OK _ = OK _ |- _ => inversion H; subst; clear H
    | H : getitem _ _ = OK _ |- _ => apply getitem_ok in H; destruct H as [? ->]
    | H : sub1d _ (scale1d _ _) = OK _ |- _ =>
        unfold scale1d in H; rewrite map_map, sub1d_selected in H
    | H : setitem _ _ (map _ (selected _)) = OK _ |- _ =>
        rewrite setitem_selected in H by assumption
    | H : setitem_scalar _ _ _ = OK _ |- _ =>
        apply setitem_scalar_ok in H; destruct H as [? ->]
    | H : context [nth ?n (list_set _ ?n _) _] |- _ =>
        rewrite nth_list_set_eq in H by (rewrite length_app; cbn; lia)
    end.

(* ===================================================================== *)
(** ** Broadcast reads and the violation mask *)
(* ===================================================================== *)

Lemma bdim_src_lt (n n' q : nat) :
  bdim n n' = Some n' -> q < n' -> (if n =? 1 then 0 else q) < n.
Proof.
  unfold bdim. intros E Hq.
  destruct (n =? n') eqn:E1.
  - apply Nat.eqb_eq in E1. subst. destruct (n' =? 1); lia.
  - destruct (n =? 1) eqn:E2.
    + apply Nat.eqb_eq in E2. lia.
    + destruct (n' =? 1) eqn:E3; [|discriminate].
      inversion E; subst. now rewrite Nat.eqb_refl in E1.
Qed.

Lemma bsrc_lt (s s' : nat * nat) (k : nat) :
  bshape s s' = Some s' -> k < size_of s' -> bsrc s s' k < size_of s.
Proof.
  destruct s as [h w], s' as [h' w']. unfold bshape, bsrc, size_of. cbn [fst snd].
  destruct (bdim h h') eqn:E1; [|discriminate].
  destruct (bdim w w') eqn:E2; [|discriminate].
  intros E Hk. inversion E; subst.
  assert (Hw : w' <> 0) by (intros ->; lia).
  assert (Hi : k / w' < h') by (apply Nat.Div0.div_lt_upper_bound; lia).
  pose proof (Nat.mod_upper_bound k w' Hw) as Hj.
  pose proof (bdim_src_lt _ E1 Hi) as Bi.
  pose proof (bdim_src_lt _ E2 Hj) as Bj.
  nia.
Qed.

Lemma bflat_same_shape {T} `{Dflt T} (a : ndarray T) (k : nat) :
  k < size_of (shape a) -> bflat a (shape a) k = flat a k.
Proof. intros Hk. unfold bflat. now rewrite bsrc_same. Qed.

Lemma bflat_tabulate {T} `{Dflt T} (s : nat * nat) (f : nat -> T) (k : nat) :
  k < size_of s -> bflat (tabulate s f) s k = f k.
Proof.
  intros Hk. unfold bflat. cbn [shape tabulate].
  rewrite bsrc_same by exact Hk. now apply flat_tabulate.
Qed.

Lemma bflat_map1 {A T} `{Dflt A} `{Dflt T} (f : A -> T) (a : ndarray A) (s : nat * nat) (k : nat) :
  bshape (shape a) s = Some s -> k < size_of s ->
  bflat (map1 f a) s k = f (bflat a s k).
Proof.
  intros E Hk. unfold bflat, map1. cbn [shape tabulate].
  rewrite flat_tabulate by (apply bsrc_lt; assumption). reflexivity.
Qed.

Lemma violations_ok (y : ndarray R) (t : R) (m : ndarray R) :
  bshape (shape y) (shape m) = Some (shape y) ->
  violations y t m = OK (tabulate (shape y) (violates y t m)).
Proof.
  intros E. unfold violations, np_logical_and, np_logical_or.
  rewrite (map2_ok _ (np_less y t) m E). cbn [rbind].
  rewrite (map2_ok _ _ (np_logical_not m) (s := shape y)) by exact E.
  f_equal. apply tabulate_ext. intros k Hk. unfold violates.
  rewrite bflat_tabulate by exact Hk.
  unfold np_less, np_logical_not.
  rewrite (bflat_map1 _ y) by (try apply bshape_refl; assumption).
  rewrite bflat_map1 by (try apply bshape_sym; assumption).
  rewrite bflat_same_shape by exact Hk. reflexivity.
Qed.

Lemma violations_shape (y : ndarray R) (t : R) (m : ndarray R) (idx : ndarray bool) :
  violations y t m = OK idx -> bshape (shape y) (shape m) = Some (shape idx).
Proof.
  unfold violations, np_logical_and, np_logical_or. intros E.
  destruct (map2 _ (np_less y t) m) as [inside|] eqn:E1; [|discriminate].
  cbn [rbind] in E. apply map2_shape in E1, E. cbn [shape np_less np_logical_not map1 tabulate] in *.
  pose proof (bshape_sym _ _ (bshape_absorb _ _ (bshape_sym _ _ E1))) as A.
  congruence.
Qed.

(* ===================================================================== *)
(** ** One pass of the loop body, read backwards from a normal return *)
(* ===================================================================== *)

Lemma fienup_step_inv (a : args) (i : nat) (l : locals) (st st' : state) (l' : locals) :
  valid_mode a ->
  x l < length (heap st) ->
  fienup_step a i l st = (st', OK l') ->
  exists (yc : ndarray C) (idx : ndarray bool) (x_hat : ndarray C) (e : R),
    let ly := length (heap st) in
    let yv := np_real yc in
    let h1 := heap st ++ [yv] in
    let xl := if takes_baseline a then ly else x l in
    let xpl := match x_p l with None => ly | Some _ => x l end in
    let xold := nth xl h1 empty_array in
    let xnew := tabulate (shape xold)
                  (fun k => if flat idx k
                            then correction a (flat (nth xpl h1 empty_array) k) (flat yv k)
                            else flat xold k) in
    ifft2 (y_hat l) = OK yc /\
    violations yv (threshhold a) (nth (l_mask l) h1 empty_array) = OK idx /\
    shape xold = shape idx /\
    fft2 (map1 RtoC xnew) = OK x_hat /\
    mul_real_complex (nth (mag a) (list_set h1 xl xnew) empty_array)
                     (np_exp_1j (np_angle x_hat)) = OK (y_hat l') /\
    heap st' = list_set h1 xl xnew /\
    rng st' = rng st /\
    transforms st' = 2 + transforms st /\
    l_mask l' = l_mask l /\ x l' = xl /\ x_p l' = Some xpl /\
    errors l' = errors l ++ [e] /\
    (if is_mode a "gs"
     then magnitude_error x_hat (nth (mag a) (list_set h1 xl xnew) empty_array) = OK e
     else e = sum_sq (map (flat xold) (selected idx))) /\
    stdout st' = (stdout st
                  ++ (if (i mod 100 =? 0) && verbose a
                      then [PrintStep i (steps a)] else []))
                 ++ (if (i mod 100 =? 0) && verbose a
                     then [PrintOpen (count_true idx)] else []).
Proof.
  intros Hm Hx H. unfold fienup_step in H. unfold takes_baseline, correction.
  destruct Hm as [Hm|[Hm|[Hm|Hm]]]; decide_modes Hm; minv H;
    unfold ret in H; inversion H; subst; clear H; cbn [orb]; mfin;
    cbn [l_mask x x_p errors y_hat heap rng transforms stdout];
    eexists _, _, _, _; (split; [reflexivity|]); rewrite ?nth_snoc_last;
    repeat split; try eassumption; try reflexivity.
Qed.

Lemma ifft2_shape (a c : ndarray C) :
  ifft2 a = OK c -> shape c = shape a /\ nonempty (shape a) = true.
Proof.
  unfold ifft2. destruct (nonempty (shape a)); [|discriminate].
  intros E. inversion E. auto.
Qed.

Lemma fft2_shape (a c : ndarray C) :
  fft2 a = OK c -> shape c = shape a /\ nonempty (shape a) = true.
Proof.
  unfold fft2. destruct (nonempty (shape a)); [|discriminate].
  intros E. inversion E. auto.
Qed.

(** Consequences of one normally returning pass for the next one. *)
Lemma fienup_step_facts (a : args) (i : nat) (l : locals) (st st' : state) (l' : locals) :
  Inv a l st ->
  fienup_step a i l st = (st', OK l') ->
  Inv a l' st' /\
  nonempty (shape (y_hat l)) = true /\
  shape (y_hat l') = shape (y_hat l) /\
  shape (deref st' (x l')) = shape (y_hat l) /\
  deref st' (mag a) = deref st (mag a) /\
  l_mask l' = l_mask l /\
  length (errors l') = S (length (errors l)) /\
  x_p l' <> None /\
  x l <= x l'.
Proof.
  intros (Hm & Hmx & Hkx & Hx & Sk & Bs & Sx & Sp) H.
  destruct (@fienup_step_inv a i l st st' l' Hm Hx H)
    as (yc & idx & x_hat & e & Ey & Ev & Sxo & Ef & Emul & Eh & _ & _ & Ek & Exl & Exp & Ee & _).
  unfold deref in *.
  apply ifft2_shape in Ey. destruct Ey as [Sy Ne].
  apply fft2_shape in Ef. destruct Ef as [Sf _].
  cbn [shape map1 tabulate] in Sf.
  apply violations_shape in Ev. cbn [shape np_real map1 tabulate] in Ev.
  assert (Hxl : (if takes_baseline a then length (heap st) else x l) < length (heap st ++ [np_real yc])).
  { rewrite length_app. cbn. destruct (takes_baseline a); lia. }
  assert (Hne : forall k, k < x l -> (if takes_baseline a then length (heap st) else x l) <> k).
  { intros k Hk. destruct (takes_baseline a); lia. }
  rewrite nth_snoc_old in Ev by lia.
  rewrite Sy, Sk in Ev.
  pose proof (bshape_sym _ _ Bs) as Bs'. rewrite Bs' in Ev. inversion Ev as [Si]; clear Ev.
  apply map2_shape in Emul. cbn [shape np_exp_1j np_angle map1 tabulate] in Emul.
  rewrite nth_list_set_neq, nth_snoc_old in Emul by (try apply Hne; lia).
  rewrite Sf, Sxo, <- Si, Bs in Emul. inversion Emul as [Sh]; clear Emul.
  unfold Inv, deref. rewrite Eh, Ek, Exl.
  set (xl := if takes_baseline a then length (heap st) else x l) in *.
  assert (Dold : forall k w, k < x l ->
            nth k (list_set (heap st ++ [np_real yc]) xl w) empty_array
            = nth k (heap st) empty_array).
  { intros k w Hk. rewrite nth_list_set_neq, nth_snoc_old by (try apply Hne; lia).
    reflexivity. }
  rewrite !Dold by lia.
  rewrite nth_list_set_eq by exact Hxl. cbn [shape tabulate].
  assert (Hge : x l <= xl) by (subst xl; destruct (takes_baseline a); lia).
  repeat split; auto; try lia.
  - rewrite length_list_set. lia.
  - rewrite <- Sh. exact Bs.
  - intros Hb. subst xl. rewrite Hb in *. rewrite nth_snoc_old by lia. exact (Sx eq_refl).
  - congruence.
  - congruence.
  - rewrite Ee, length_app. cbn. lia.
  - rewrite Exp. discriminate.
Qed.

Lemma ifft2_nonempty (a : ndarray C) :
  nonempty (shape a) = true ->
  ifft2 a = OK (map1 (fun z => Cmul (RtoC (1 / INR (size_of (shape a)))) z) (dft2 1 a)).
Proof. intros E. unfold ifft2. now rewrite E. Qed.

Lemma fft2_nonempty (a : ndarray C) :
  nonempty (shape a) = true -> fft2 a = OK (dft2 (-1) a).
Proof. intros E. unfold fft2. now rewrite E. Qed.

Lemma magnitude_error_ok (x_hat : ndarray C) (m : ndarray R) (s : nat * nat) :
  bshape (shape x_hat) (shape m) = Some s ->
  magnitude_error x_hat m
  = OK (np_mean (map1 (fun r => (r ^ 2)%R)
                   (tabulate s (fun k => (bflat (np_abs x_hat) s k - bflat m s k)%R)))).
Proof.
  intros E. unfold magnitude_error.
  rewrite (map2_ok Rminus (np_abs x_hat) m E). reflexivity.
Qed.

Lemma mul_real_complex_ok (m : ndarray R) (z : ndarray C) (s : nat * nat) :
  bshape (shape m) (shape z) = Some s ->
  mul_real_complex m z
  = OK (tabulate s (fun k => Cmul (RtoC (bflat m s k)) (bflat z s k))).
Proof. intros E. unfold mul_real_complex. now rewrite (map2_ok _ m z E). Qed.

Lemma setitem_scalar_same_shape {T} `{Dflt T} (a : ndarray T) (idx : ndarray bool) (v : T) :
  shape a = shape idx ->
  setitem_scalar a idx v
  = OK (tabulate (shape a) (fun k => if flat idx k then v else flat a k)).
Proof. intros E. unfold setitem_scalar. now rewrite E, shape_eqb_refl. Qed.

Ltac shape_solver :=
  cbn [shape tabulate map1 np_real np_exp_1j np_angle np_abs dft2];
  solve [ congruence | rewrite length_app; cbn; lia | lia ].

(** Run a computation forwards through steps that are known to succeed. *)
Ltac mfwd s :=
  repeat first
    [ rewrite when_print
    | rewrite nth_snoc_last
    | rewrite nth_snoc_old by lia
    | rewrite nth_list_set_eq by shape_solver
    | rewrite nth_list_set_neq by lia
    | rewrite getitem_same_shape by shape_solver
    | rewrite map_map, sub1d_selected
    | rewrite setitem_selected by shape_solver
    | rewrite fft2_nonempty by shape_solver
    | rewrite (@mul_real_complex_ok _ _ s) by shape_solver
    | rewrite (@magnitude_error_ok _ _ s) by shape_solver
    | progress mcbn
    | progress unfold scale1d
    | rewrite setitem_scalar_same_shape by shape_solver ].

Lemma fienup_step_total (a : args) (i : nat) (l : locals) (st : state) :
  Ready a l st ->
  exists st' l', fienup_step a i l st = (st', OK l').
Proof.
  intros ((Hm & Hmx & Hkx & Hx & Sk & Bs & Sx & Sp) & Ne & Sio).
  unfold deref in *.
  pose proof (ifft2_nonempty _ Ne) as Ey.
  set (yc := map1 _ (dft2 1 (y_hat l))) in Ey.
  assert (Sy : shape yc = shape (y_hat l)) by reflexivity.
  pose proof (bshape_sym _ _ Bs) as Bs'.
  assert (Ev : violations (np_real yc) (threshhold a) (nth (l_mask l) (heap st) empty_array)
               = OK (tabulate (shape yc) (violates (np_real yc) (threshhold a) (nth (l_mask l) (heap st) empty_array)))).
  { apply (violations_ok (np_real yc)). cbn [shape np_real map1 tabulate].
    rewrite Sy, Sk. exact Bs'. }
  set (idx := tabulate (shape yc) _) in Ev.
  assert (Si : shape idx = shape yc) by reflexivity.
  clearbody yc idx.
  unfold fienup_step, takes_baseline in *.
  destruct Hm as [Hm|[Hm|[Hm|Hm]]]; decide_modes Hm; cbn [orb negb] in *;
    try specialize (Sx eq_refl); try specialize (Sio eq_refl);
    unfold bind; rewrite !when_print; mcbn; rewrite Ey; mcbn;
    rewrite ?nth_snoc_last; rewrite ?(nth_snoc_old (heap st)) by lia;
    rewrite Ev;
    (destruct (x_p l); [assert (Sp' := Sp ltac:(discriminate))|]);
    mfwd (shape (y_hat l));
    unfold ret; eexists _, _; reflexivity.
Qed.

Lemma mode_test_valid (a : args) :
  is_mode a "input-output" || is_mode a "output-output"
  || is_mode a "hybrid" || is_mode a "gs" = true <-> valid_mode a.
Proof.
  unfold valid_mode, is_mode. rewrite !orb_true_iff, !String.eqb_eq. tauto.
Qed.

Lemma firstn_length_app {A} (l t : list A) : firstn (length l) (l ++ t) = l.
Proof. induction l as [|h l IH]; cbn; [reflexivity|now rewrite IH]. Qed.

Lemma nth_app_length {A} (l t : list A) (d : A) :
  nth (length l) (l ++ t) d = nth 0 t d.
Proof. rewrite <- (Nat.add_0_r (length l)). apply app_nth2_plus. Qed.

(** Read the heap after allocations at its end. *)
Ltac heap_norm :=
  repeat match goal with
    | H : context [nth _ (_ ++ [_]) _] |- _ =>
        first [ rewrite nth_snoc_last in H
              | rewrite nth_snoc_old in H by (rewrite ?length_app; cbn; lia) ]
    end;
  rewrite ?length_app; cbn [length];
  rewrite <- ?app_assoc; cbn [app];
  rewrite <- ?Nat.add_assoc; cbn [Nat.add];
  rewrite ?firstn_length_app, ?app_nth2_plus, ?nth_app_length;
  rewrite ?app_nth1 by lia;
  cbn [nth].

Lemma fienup_setup_inv (a : args) (st st' : state) (l : locals) :
  valid_args st a ->
  fienup_setup a st = (st', OK l) ->
  Rltb 0 (beta a) = true /\ (0 <? steps a)%Z = true /\
  Inv a l st' /\
  x_p l = None /\ errors l = [] /\
  transforms st' = transforms st /\
  deref st' (mag a) = deref st (mag a) /\
  deref st' (x l) = np_zeros (shape (deref st (mag a))) /\
  length (heap st) <= x l /\
  firstn (length (heap st)) (heap st') = heap st /\
  (forall m, mask a = Some m -> l_mask l = m) /\
  (init_phi a = None -> shape (y_hat l) = shape (deref st (mag a))) /\
  (exists phiv,
     mul_real_complex (deref st (mag a)) (np_exp_1j phiv) = OK (y_hat l) /\
     forall p, init_phi a = Some p -> phiv = deref st p /\ rng st' = rng st).
Proof.
  intros (Vm & Vp & Vk) H. unfold fienup_setup in H.
  unfold valid_opt_ref, deref in *.
  destruct (mask a) as [m|], (init_phi a) as [p|]; unfold valid_ref in *; minv H;
    unfold ret in H; inversion H; subst; clear H;
    apply mode_test_valid in A1; apply shape_eqb_eq in A2;
    unfold Inv, deref; cbn [l_mask y_hat x x_p errors heap rng transforms];
    heap_norm;
    apply map2_shape in E as Sh'; pose proof (bshape_absorb _ _ Sh') as Sh;
    cbn [shape np_exp_1j map1 tabulate] in Sh, Sh'; rewrite ?bshape_refl in Sh';
    repeat split; auto; try lia; try congruence;
    (eexists; split; [exact E|]); intros ? [= <-]; auto.
Qed.

Lemma Rltb_true (x y : R) : (x < y)%R -> Rltb x y = true.
Proof. intros Hlt. unfold Rltb. destruct (Rlt_dec x y); [reflexivity|contradiction]. Qed.

Lemma Rltb_false (x y : R) : (y <= x)%R -> Rltb x y = false.
Proof. intros Hle. unfold Rltb. destruct (Rlt_dec x y); [lra|reflexivity]. Qed.

Lemma fienup_setup_total (a : args) (st : state) :
  valid_args st a ->
  (0 < beta a)%R -> (0 < steps a)%Z -> valid_mode a ->
  (forall m, mask a = Some m -> shape (deref st m) = shape (deref st (mag a))) ->
  (forall p, init_phi a = Some p ->
     bshape (shape (deref st (mag a))) (shape (deref st p)) <> None) ->
  exists st' l, fienup_setup a st = (st', OK l).
Proof.
  intros (Vm & Vp & Vk) Hb Hs Hmode Hmask Hphi. unfold fienup_setup.
  apply Rltb_true in Hb. apply Z.ltb_lt in Hs. apply mode_test_valid in Hmode.
  rewrite Hb, Hs, Hmode. unfold valid_opt_ref, deref in *.
  destruct (mask a) as [m|], (init_phi a) as [p|]; unfold valid_ref in *;
    try specialize (Hmask _ eq_refl); try specialize (Hphi _ eq_refl);
    unfold bind; cbn [assert]; mcbn; heap_norm;
    rewrite ?Hmask; rewrite shape_eqb_refl; cbn [assert]; mcbn; heap_norm;
    first [ destruct (bshape (shape (nth (mag a) (heap st) empty_array))
                             (shape (nth p (heap st) empty_array))) as [s|] eqn:Eb;
            [|contradiction];
            rewrite (@mul_real_complex_ok _ _ s) by exact Eb
          | rewrite (@mul_real_complex_ok _ _ (shape (nth (mag a) (heap st) empty_array)))
              by apply bshape_refl ];
    unfold ret; eexists _, _; reflexivity.
Qed.

Lemma Ready_step (a : args) (i : nat) (l : locals) (st st' : state) (l' : locals) :
  Ready a l st ->
  fienup_step a i l st = (st', OK l') ->
  Ready a l' st'.
Proof.
  intros (HI & Ne & Sio) H.
  destruct (@fienup_step_facts a i l st st' l' HI H) as (HI' & _ & Sh & _ & Dm & _).
  split; [exact HI'|]. rewrite Sh, Dm. auto.
Qed.

(** The loop, one more pass at the end. *)
Lemma fienup_loop_snoc (a : args) (n i : nat) (l : locals) (st : state) :
  fienup_loop a (S n) i l st
  = (l1 <- fienup_loop a n i l ;; fienup_step a (i + n) l1) st.
Proof.
  revert i l st. induction n as [|n IH]; intros i l st.
  - cbn [fienup_loop]. unfold bind, ret. rewrite Nat.add_0_r.
    destruct (fienup_step a i l st) as [st1 [l1|e]]; reflexivity.
  - change (fienup_loop a (S (S n)) i l st)
      with ((l' <- fienup_step a i l ;; fienup_loop a (S n) (S i) l') st).
    unfold bind at 1.
    destruct (fienup_step a i l st) as [st1 [l1|e]] eqn:E1.
    + rewrite IH. cbn [fienup_loop]. unfold bind. rewrite E1.
      replace (S i + n) with (i + S n) by lia. reflexivity.
    + cbn [fienup_loop]. unfold bind. rewrite E1. reflexivity.
Qed.

Lemma fienup_loop_total (a : args) (n i : nat) (l : locals) (st : state) :
  Ready a l st ->
  exists st' l', fienup_loop a n i l st = (st', OK l') /\ Ready a l' st'.
Proof.
  revert i l st. induction n as [|n IH]; intros i l st HR.
  - exists st, l. split; [reflexivity|exact HR].
  - destruct (@fienup_step_total a i l st HR) as (st1 & l1 & E1).
    destruct (IH (S i) l1 st1 (@Ready_step _ _ _ _ _ _ HR E1)) as (st' & l' & E & HR').
    exists st', l'. split; [|exact HR'].
    cbn [fienup_loop]. unfold bind. rewrite E1. exact E.
Qed.

Lemma fienup_step_transforms (a : args) (i : nat) (l : locals) (st st' : state) (l' : locals) :
  Inv a l st ->
  fienup_step a i l st = (st', OK l') ->
  transforms st' = 2 + transforms st /\ rng st' = rng st.
Proof.
  intros (Hm & _ & _ & Hx & _) H.
  destruct (@fienup_step_inv a i l st st' l' Hm Hx H)
    as (yc & idx & x_hat & e & _ & _ & _ & _ & _ & _ & Er & Et & _).
  auto.
Qed.

(** Consequences of [n] normally returning passes. *)
Lemma fienup_loop_facts (a : args) (n i : nat) (l : locals) (st st' : state) (l' : locals) :
  Inv a l st ->
  fienup_loop a n i l st = (st', OK l') ->
  Inv a l' st' /\
  shape (y_hat l') = shape (y_hat l) /\
  deref st' (mag a) = deref st (mag a) /\
  l_mask l' = l_mask l /\
  length (errors l') = n + length (errors l) /\
  transforms st' = 2 * n + transforms st /\
  rng st' = rng st /\
  x l <= x l' /\
  (0 < n -> shape (deref st' (x l')) = shape (y_hat l) /\ x_p l' <> None).
Proof.
  revert i l st st' l'. induction n as [|n IH]; intros i l st st' l' HI H.
  - cbn in H. unfold ret in H. inversion H; subst. split; [exact HI|]. repeat split; auto; try lia.
  - rewrite fienup_loop_snoc in H. apply bind_ok_inv in H.
    destruct H as (l1 & st1 & H1 & H2).
    destruct (IH _ _ _ _ _ HI H1) as (HI1 & S1 & D1 & K1 & L1 & T1 & R1 & X1 & _).
    destruct (@fienup_step_facts a (i + n) l1 st1 st' l' HI1 H2)
      as (HI' & _ & S2 & Sx & D2 & K2 & L2 & P2 & X2).
    destruct (@fienup_step_transforms a (i + n) l1 st1 st' l' HI1 H2) as (T2 & R2).
    split; [exact HI'|]. repeat split; try congruence; try lia.
Qed.

Lemma fienup_run_returns (a : args) (st : state) (n : nat) (s : nat * nat) :
  valid_args st a ->
  (0 < beta a)%R -> (0 < steps a)%Z -> valid_mode a ->
  mask_fits st a ->
  y_hat_shape st a = Some s ->
  nonempty s = true ->
  (takes_baseline a = false -> s = shape (deref st (mag a))) ->
  exists st' l,
    fienup_run n a st = (st', OK l) /\
    Inv a l st' /\
    shape (y_hat l) = s /\
    length (errors l) = n /\
    (0 < n -> shape (deref st' (x l)) = s).
Proof.
  intros Va Hb Hs Hm Hk Hy Hne Hio.
  assert (Hphi : forall p, init_phi a = Some p ->
            bshape (shape (deref st (mag a))) (shape (deref st p)) <> None).
  { intros p Ep. unfold y_hat_shape in Hy. rewrite Ep in Hy. congruence. }
  destruct (fienup_setup_total Va Hb Hs Hm Hk Hphi) as (st1 & l0 & E0).
  destruct (fienup_setup_inv Va E0)
    as (_ & _ & HI & _ & Ee & _ & Dm & _ & _ & _ & _ & Sn & phiv & Emul & Ephi).
  assert (Sy : shape (y_hat l0) = s).
  { unfold y_hat_shape in Hy. destruct (init_phi a) as [p|] eqn:Ep.
    - destruct (Ephi p eq_refl) as [-> _]. apply map2_shape in Emul.
      cbn [shape np_exp_1j map1 tabulate] in Emul. congruence.
    - rewrite (Sn eq_refl). congruence. }
  assert (HR : Ready a l0 st1).
  { split; [exact HI|]. rewrite Sy, Dm. auto. }
  destruct (@fienup_loop_total a n 1 l0 st1 HR) as (st' & l & E & _).
  destruct (fienup_loop_facts _ _ HI E) as (HI' & S' & _ & _ & L' & _ & _ & _ & X').
  exists st', l. split; [|split; [exact HI'|repeat split]].
  - unfold fienup_run, bind. rewrite E0. exact E.
  - congruence.
  - rewrite L', Ee. cbn. lia.
  - intros Hn. destruct (X' Hn) as [Sx _]. congruence.
Qed.

Lemma fienup_loop_app (a : args) (n m i : nat) (l : locals) (st : state) :
  fienup_loop a (n + m) i l st
  = (l1 <- fienup_loop a n i l ;; fienup_loop a m (i + n) l1) st.
Proof.
  revert i l st. induction n as [|n IH]; intros i l st.
  - cbn [Nat.add fienup_loop]. unfold bind, ret. now rewrite Nat.add_0_r.
  - cbn [Nat.add fienup_loop]. unfold bind.
    destruct (fienup_step a i l st) as [st1 [l1|e]] eqn:E1; [|reflexivity].
    rewrite IH. unfold bind. replace (S i + n) with (i + S n) by lia. reflexivity.
Qed.

Lemma fienup_loop_errors (a : args) (n i : nat) (l : locals) (st st' : state) (l' : locals) :
  Inv a l st ->
  fienup_loop a n i l st = (st', OK l') ->
  exists es, errors l' = errors l ++ es /\ length es = n.
Proof.
  revert i l st st' l'. induction n as [|n IH]; intros i l st st' l' HI H.
  - cbn in H. unfold ret in H. inversion H; subst. exists []. now rewrite app_nil_r.
  - rewrite fienup_loop_snoc in H. apply bind_ok_inv in H.
    destruct H as (l1 & st1 & H1 & H2).
    destruct (IH _ _ _ _ _ HI H1) as (es & Ees & Les).
    destruct (fienup_loop_facts _ _ HI H1) as (HI1 & _).
    destruct HI1 as (Hm & _ & _ & Hx & _).
    destruct (@fienup_step_inv a (i + n) l1 st1 st' l' Hm Hx H2)
      as (yc & idx & x_hat & e & _ & _ & _ & _ & _ & _ & _ & _ & _ & _ & _ & Ee & _).
    exists (es ++ [e]). rewrite Ee, Ees, <- app_assoc, length_app. cbn. split; [reflexivity|lia].
Qed.

(** A normal return of the routine cut after [n] iterations. *)
Lemma fienup_run_facts (a : args) (st : state) (n : nat) (st' : state) (l : locals) :
  valid_args st a ->
  fienup_run n a st = (st', OK l) ->
  exists st0 l0,
    fienup_setup a st = (st0, OK l0) /\
    fienup_loop a n 1 l0 st0 = (st', OK l) /\
    Inv a l0 st0 /\ Inv a l st' /\
    y_hat_shape st a = Some (shape (y_hat l)) /\
    length (errors l) = n /\
    deref st' (mag a) = deref st (mag a) /\
    transforms st' = 2 * n + transforms st /\
    (0 < n -> shape (deref st' (x l)) = shape (y_hat l) /\ x_p l <> None).
Proof.
  intros Va H. unfold fienup_run in H. apply bind_ok_inv in H.
  destruct H as (l0 & st0 & E0 & E).
  destruct (fienup_setup_inv Va E0)
    as (_ & _ & HI & _ & Ee & T0 & Dm & _ & _ & _ & _ & Sn & phiv & Emul & Ephi).
  destruct (fienup_loop_facts _ _ HI E) as (HI' & S' & D' & _ & L' & T' & _ & _ & X').
  exists st0, l0. repeat match goal with |- _ /\ _ => split end; auto.
  - unfold y_hat_shape. rewrite S'. destruct (init_phi a) as [p|] eqn:Ep.
    + destruct (Ephi p eq_refl) as [-> _]. apply map2_shape in Emul. exact Emul.
    + now rewrite (Sn eq_refl).
  - rewrite L', Ee. cbn. lia.
  - congruence.
  - lia.
  - intros Hn. destruct (X' Hn). split; congruence.
Qed.

(** The trace grows by one entry per pass: cutting the routine earlier
    yields a prefix of the trace. *)
Lemma fienup_run_prefix (a : args) (st : state) (n k : nat) (st' : state) (l : locals) :
  valid_args st a ->
  fienup_run n a st = (st', OK l) ->
  k <= n ->
  exists stk lk, fienup_run k a st = (stk, OK lk) /\ errors lk = firstn k (errors l).
Proof.
  intros Va H Hk.
  destruct (@fienup_run_facts a st n st' l Va H) as (st0 & l0 & E0 & E & HI & _).
  replace n with (k + (n - k)) in E by lia.
  rewrite fienup_loop_app in E. apply bind_ok_inv in E.
  destruct E as (lk & stk & Ek & Er).
  destruct (fienup_loop_facts _ _ HI Ek) as (HIk & _ & _ & _ & Lk & _).
  destruct (fienup_loop_errors _ _ HIk Er) as (es & Ees & _).
  destruct (fienup_setup_inv Va E0) as (_ & _ & _ & _ & Ee & _).
  exists stk, lk. split.
  - unfold fienup_run, bind. rewrite E0. exact Ek.
  - rewrite Ees. rewrite Ee in Lk. cbn in Lk.
    rewrite firstn_app. replace (k - length (errors lk)) with 0 by lia.
    rewrite firstn_all2 by lia. cbn. now rewrite app_nil_r.
Qed.

Lemma fienup_phase_retrieval_ok (a : args) (st st' : state) (xl : loc) (errs : list R) :
  fienup_phase_retrieval a st = (st', OK (xl, errs)) <->
  exists l, fienup_run (Z.to_nat (steps a)) a st = (st', OK l)
            /\ xl = x l /\ errs = errors l.
Proof.
  unfold fienup_phase_retrieval, bind, ret.
  destruct (fienup_run (Z.to_nat (steps a)) a st) as [st1 [l|e]]; split.
  - intros E. inversion E; subst. now exists l.
  - intros (l1 & E & -> & ->). now inversion E.
  - discriminate.
  - intros (l1 & E & _). discriminate.
Qed.

(** Validity of the references of a concrete call. *)
Ltac solve_valid :=
  unfold valid_args, valid_ref; cbn; unfold valid_ref; cbn; lia.

(* ===================================================================== *)
(** ** C6: shape of the result and length of the error trace *)
(* ===================================================================== *)

(** C6 (as amended).  For a call with a valid mode, [beta > 0], [steps > 0],
    a mask of the shape of [mag] and an initial phase that is absent or
    broadcasts to the shape of [mag]: if [mag] is non-empty the call returns;
    and whenever it returns, [x] has the shape of [mag], the error trace has
    [steps] entries, and the run cut after [k <= steps] iterations has
    produced exactly the first [k] of them. *)
Theorem fienup_result_shape (a : args) (st : state) :
  valid_args st a -> valid_mode a ->
  (0 < beta a)%R -> (0 < steps a)%Z ->
  mask_fits st a ->
  y_hat_shape st a = Some (shape (deref st (mag a))) ->
  (nonempty (shape (deref st (mag a))) = true ->
   exists st' xl errs, fienup_phase_retrieval a st = (st', OK (xl, errs))) /\
  (forall st' xl errs,
     fienup_phase_retrieval a st = (st', OK (xl, errs)) ->
     shape (deref st' xl) = shape (deref st (mag a)) /\
     length errs = Z.to_nat (steps a) /\
     forall k, k <= Z.to_nat (steps a) ->
       exists stk lk, fienup_run k a st = (stk, OK lk) /\ errors lk = firstn k errs).
Proof.
  intros Va Hm Hb Hs Hk Hy. split.
  - intros Hne.
    destruct (@fienup_run_returns a st (Z.to_nat (steps a)) _ Va Hb Hs Hm Hk Hy Hne)
      as (st' & l & E & _); [reflexivity|].
    exists st', (x l), (errors l). apply fienup_phase_retrieval_ok. now exists l.
  - intros st' xl errs H. apply fienup_phase_retrieval_ok in H.
    destruct H as (l & E & -> & ->).
    destruct (@fienup_run_facts a st _ st' l Va E)
      as (st0 & l0 & _ & _ & _ & _ & Sy & Le & _ & _ & X).
    assert (Hn : 0 < Z.to_nat (steps a)) by lia.
    destruct (X Hn) as [Sx _]. repeat split.
    + rewrite Hy in Sy. congruence.
    + exact Le.
    + intros k Hk'. exact (@fienup_run_prefix a st _ k st' l Va E Hk').
Qed.

Lemma fienup_result_shape_witness :
  let a := Example.call "hybrid" 1 in
  let st := Example.st0 in
  (valid_args st a /\ valid_mode a /\ (0 < beta a)%R /\ (0 < steps a)%Z /\
   mask_fits st a /\ y_hat_shape st a = Some (shape (deref st (mag a)))) /\
  (exists st' xl errs, fienup_phase_retrieval a st = (st', OK (xl, errs))) /\
  (forall st' xl errs,
     fienup_phase_retrieval a st = (st', OK (xl, errs)) ->
     shape (deref st' xl) = (1, 1) /\ length errs = 1).
Proof.
  intros a st.
  assert (Va : valid_args st a) by (subst a st; solve_valid).
  assert (Hm : valid_mode a) by (right; right; left; reflexivity).
  assert (Hb : (0 < beta a)%R) by (cbn; lra).
  assert (Hs : (0 < steps a)%Z) by (cbn; lia).
  assert (Hk : mask_fits st a) by (intros m [= <-]; reflexivity).
  assert (Hy : y_hat_shape st a = Some (shape (deref st (mag a)))) by reflexivity.
  destruct (fienup_result_shape Va Hm Hb Hs Hk Hy) as [T P].
  split; [auto 10|]. split.
  - apply T. reflexivity.
  - intros st' xl errs H. destruct (P st' xl errs H) as (S1 & L1 & _). auto.
Defined.

(** C6, as stated, fails: with the wide initial phase the call is valid in
    the claim's sense (valid mode, positive [beta] and [steps], mask of the
    shape of [mag]) and returns an [x] of shape (1, 2), not (1, 1). *)
Lemma fienup_result_shape_counterexample :
  let a := Example.call_wide "hybrid" in
  let st := Example.st0 in
  valid_mode a /\ (0 < beta a)%R /\ (0 < steps a)%Z /\ mask_fits st a /\
  exists st' xl errs,
    fienup_phase_retrieval a st = (st', OK (xl, errs)) /\
    shape (deref st (mag a)) = (1, 1) /\
    shape (deref st' xl) = (1, 2).
Proof.
  intros a st.
  assert (Va : valid_args st a) by (subst a st; solve_valid).
  assert (Hm : valid_mode a) by (right; right; left; reflexivity).
  assert (Hb : (0 < beta a)%R) by (cbn; lra).
  assert (Hs : (0 < steps a)%Z) by (cbn; lia).
  assert (Hk : mask_fits st a) by (intros m [= <-]; reflexivity).
  repeat split; auto.
  destruct (@fienup_run_returns a st 1 (1, 2) Va Hb Hs Hm Hk)
    as (st' & l & E & _ & _ & _ & X); try reflexivity; try discriminate.
  exists st', (x l), (errors l). repeat split.
  - apply fienup_phase_retrieval_ok. exists l. auto.
  - apply X. lia.
Qed.

(* ===================================================================== *)
(** ** C7: argument checks fail before anything is computed *)
(* ===================================================================== *)

Lemma not_valid_mode_test (a : args) :
  ~ valid_mode a ->
  is_mode a "input-output" || is_mode a "output-output"
  || is_mode a "hybrid" || is_mode a "gs" = false.
Proof.
  intros Hn. apply not_true_is_false. intros E. apply Hn. now apply mode_test_valid.
Qed.

Lemma shape_eqb_neq (s1 s2 : nat * nat) : s1 <> s2 -> shape_eqb s1 s2 = false.
Proof.
  intros Hn. apply not_true_is_false. intros E. apply Hn. now apply shape_eqb_eq.
Qed.

(** C7.  A call with [beta <= 0], or [steps <= 0], or a mode string outside
    the four modes, or a supplied mask whose shape differs from that of
    [mag], raises an [AssertionError] carrying one of the four messages of
    the routine, and leaves the interpreter state exactly as it was: no
    transform was computed, no array created, nothing printed, no iteration
    run and no error-trace entry produced. *)
Theorem fienup_rejects_bad_arguments (a : args) (st : state) :
  (beta a <= 0)%R \/ (steps a <= 0)%Z \/ ~ valid_mode a
  \/ (exists m, mask a = Some m /\ shape (deref st m) <> shape (deref st (mag a))) ->
  exists msg,
    fienup_phase_retrieval a st = (st, Err (AssertionError msg)) /\
    In msg [msg_beta; msg_steps; msg_mode; msg_shape] /\
    forall k, fienup_run k a st = (st, Err (AssertionError msg)).
Proof.
  intros H.
  assert (S : exists msg, fienup_setup a st = (st, Err (AssertionError msg))
                          /\ In msg [msg_beta; msg_steps; msg_mode; msg_shape]).
  { unfold fienup_setup, bind.
    destruct (Rltb 0 (beta a)) eqn:Eb; cbn [assert raise ret];
      [|exists msg_beta; split; [reflexivity|unfold In; tauto]].
    destruct (0 <? steps a)%Z eqn:Es; cbn [assert raise ret];
      [|exists msg_steps; split; [reflexivity|unfold In; tauto]].
    destruct (is_mode a "input-output" || is_mode a "output-output"
              || is_mode a "hybrid" || is_mode a "gs") eqn:Em; cbn [assert raise ret];
      [|exists msg_mode; split; [reflexivity|unfold In; tauto]].
    destruct H as [H|[H|[H|(m & Em' & Hs)]]].
    - apply Rltb_false in H. congruence.
    - apply Z.ltb_lt in Es. lia.
    - apply mode_test_valid in Em. contradiction.
    - rewrite Em'. mcbn. unfold deref in Hs.
      rewrite shape_eqb_neq by congruence. cbn [assert raise].
      exists msg_shape. split; [reflexivity|unfold In; tauto]. }
  destruct S as (msg & E & Hin). exists msg.
  assert (R : forall k, fienup_run k a st = (st, Err (AssertionError msg))).
  { intros k. unfold fienup_run, bind. now rewrite E. }
  repeat split; auto.
  unfold fienup_phase_retrieval, bind. now rewrite R.
Qed.

Lemma fienup_rejects_bad_arguments_witness :
  let a := Example.call "hybrid" 0 in
  (beta a <= 0)%R /\
  exists msg, fienup_phase_retrieval a Example.st0 = (Example.st0, Err (AssertionError msg)).
Proof.
  intros a.
  assert (Hb : (beta a <= 0)%R) by (cbn; lra).
  split; [exact Hb|].
  destruct (@fienup_rejects_bad_arguments a Example.st0 (or_introl Hb)) as (msg & E & _).
  now exists msg.
Defined.

(* ===================================================================== *)
(** ** C2: an initial phase of another shape *)
(* ===================================================================== *)

(** C2 (as amended).  If [init_phi] is supplied and its shape cannot be
    broadcast against the shape of [mag] (the other arguments being valid),
    the call fails with NumPy's broadcast [ValueError], raised at line 54
    while [y_hat] is built: no transform has been computed, nothing printed,
    the generator not consulted, and no iteration run, whatever the number
    of iterations asked for. *)
Theorem fienup_unbroadcastable_phase (a : args) (st : state) (p : loc) :
  valid_args st a -> valid_mode a ->
  (0 < beta a)%R -> (0 < steps a)%Z ->
  mask_fits st a ->
  init_phi a = Some p ->
  bshape (shape (deref st (mag a))) (shape (deref st p)) = None ->
  exists st',
    fienup_phase_retrieval a st = (st', Err broadcast_error) /\
    (forall k, fienup_run k a st = (st', Err broadcast_error)) /\
    transforms st' = transforms st /\ stdout st' = stdout st /\ rng st' = rng st /\
    firstn (length (heap st)) (heap st') = heap st.
Proof.
  intros (Vm & Vp & Vk) Hmode Hb Hs Hmask Ep Hn.
  assert (S : exists st', fienup_setup a st = (st', Err broadcast_error) /\
                          transforms st' = transforms st /\ stdout st' = stdout st /\
                          rng st' = rng st /\
                          firstn (length (heap st)) (heap st') = heap st).
  { unfold fienup_setup.
    apply Rltb_true in Hb. apply Z.ltb_lt in Hs. apply mode_test_valid in Hmode.
    rewrite Hb, Hs, Hmode, Ep. unfold mask_fits, valid_opt_ref, deref in *.
    rewrite Ep in Vp.
    destruct (mask a) as [m|]; unfold valid_ref in *;
      try specialize (Hmask _ eq_refl);
      unfold bind; cbn [assert]; mcbn; heap_norm;
      rewrite ?Hmask; rewrite shape_eqb_refl; cbn [assert]; mcbn; heap_norm;
      unfold mul_real_complex, map2; cbn [shape np_exp_1j map1 tabulate];
      rewrite Hn; eexists; (split; [reflexivity|]);
      cbn [heap rng transforms stdout]; rewrite ?firstn_length_app; auto.
    repeat split; auto. apply firstn_all. }
  destruct S as (st' & E & T & O & G & F). exists st'.
  assert (R : forall k, fienup_run k a st = (st', Err broadcast_error)).
  { intros k. unfold fienup_run, bind. now rewrite E. }
  repeat split; auto.
  unfold fienup_phase_retrieval, bind. now rewrite R.
Qed.

Lemma fienup_unbroadcastable_phase_witness :
  let a := Example.call_clash in
  let st := Example.st0 in
  (shape (deref st (mag a)) = (3, 3) /\ shape (deref st 4) = (2, 2)) /\
  exists st', fienup_phase_retrieval a st = (st', Err broadcast_error)
              /\ transforms st' = 0.
Proof.
  intros a st. split; [split; reflexivity|].
  assert (Va : valid_args st a) by (subst a st; solve_valid).
  assert (Hm : valid_mode a) by (right; right; left; reflexivity).
  assert (Hb : (0 < beta a)%R) by (cbn; lra).
  assert (Hs : (0 < steps a)%Z) by (cbn; lia).
  assert (Hk : mask_fits st a) by (intros m [=]).
  destruct (@fienup_unbroadcastable_phase a st 4 Va Hm Hb Hs Hk eq_refl eq_refl)
    as (st' & E & _ & T & _).
  exists st'. split; [exact E|exact T].
Defined.

(** C2, as stated, fails: the wide phase has shape (1, 2), [mag] has shape
    (1, 1), and the call returns normally, after a full iteration. *)
Lemma fienup_phase_shape_counterexample :
  let a := Example.call_wide "gs" in
  let st := Example.st0 in
  init_phi a = Some 3 /\
  shape (deref st 3) <> shape (deref st (mag a)) /\
  exists st' xl errs,
    fienup_phase_retrieval a st = (st', OK (xl, errs)) /\
    length errs = 1 /\ transforms st' = 2.
Proof.
  intros a st. split; [reflexivity|]. split; [discriminate|].
  assert (Va : valid_args st a) by (subst a st; solve_valid).
  assert (Hm : valid_mode a) by (right; right; right; reflexivity).
  assert (Hb : (0 < beta a)%R) by (cbn; lra).
  assert (Hs : (0 < steps a)%Z) by (cbn; lia).
  assert (Hk : mask_fits st a) by (intros m [= <-]; reflexivity).
  destruct (@fienup_run_returns a st 1 (1, 2) Va Hb Hs Hm Hk)
    as (st' & l & E & _ & _ & L & _); try reflexivity; try discriminate.
  destruct (@fienup_run_facts a st 1 st' l Va E) as (_ & _ & _ & _ & _ & _ & _ & _ & _ & T & _).
  exists st', (x l), (errors l). repeat split; auto.
  apply fienup_phase_retrieval_ok. exists l. auto.
Qed.

(* ===================================================================== *)
(** ** C5: the Fourier-domain projection restores the magnitudes *)
(* ===================================================================== *)

Lemma Cexp_1j (t : R) : Cexp (Cmul Ci (RtoC t)) = (cos t, sin t).
Proof.
  unfold Cexp, Cmul, Ci, RtoC, re, im. cbn [fst snd].
  replace (0 * t - 1 * 0)%R with 0%R by ring.
  replace (0 * 0 + 1 * t)%R with t by ring.
  rewrite exp_0. f_equal; ring.
Qed.

(** Over the reals the product [r * exp(1j * t)] has modulus [r]; the
    counterexample to C5 below shows that binary64 does not keep this. *)
Lemma Cabs_polar (r t : R) :
  (0 <= r)%R -> Cabs (Cmul (RtoC r) (Cexp (Cmul Ci (RtoC t)))) = r.
Proof.
  intros Hr. rewrite Cexp_1j. unfold Cabs, Cmul, RtoC, re, im. cbn [fst snd].
  replace ((r * cos t - 0 * sin t) * (r * cos t - 0 * sin t)
           + (r * sin t + 0 * cos t) * (r * sin t + 0 * cos t))%R
    with (r * r)%R.
  - now apply sqrt_square.
  - pose proof (sin2_cos2 t) as E. unfold Rsqr in E. nra.
Qed.


(** What the initialisation does with the random generator. *)
Lemma fienup_setup_random_phase (a : args) (st st0 : state) (l0 : locals) :
  valid_args st a ->
  init_phi a = None ->
  fienup_setup a st = (st0, OK l0) ->
  (forall k, rng st0 k = rng st (k + size_of (shape (deref st (mag a))))) /\
  mul_real_complex (deref st (mag a))
    (np_exp_1j (map1 (Rmult (2 * PI)) (tabulate (shape (deref st (mag a))) (rng st))))
  = OK (y_hat l0).
Proof.
  intros (Vm & _ & Vk) Ep H. unfold fienup_setup in H. rewrite Ep in H.
  unfold valid_opt_ref, deref in *.
  destruct (mask a) as [m|]; unfold valid_ref in *; minv H;
    unfold ret in H; inversion H; subst; clear H;
    cbn [y_hat rng]; heap_norm; split; first [reflexivity|exact E].
Qed.




(* ===================================================================== *)
(** ** C4: the violation set and the end-of-iteration estimate *)
(* ===================================================================== *)

(** The state of the routine between iterations [k] and [k + 1], and what
    pass [k + 1] does to it, in the terms of the source. *)
Lemma fienup_iteration_inv (a : args) (st : state) (k : nat) (st1 : state) (l : locals)
    (st2 : state) (l' : locals) :
  valid_args st a ->
  fienup_run k a st = (st1, OK l) ->
  fienup_step a (S k) l st1 = (st2, OK l') ->
  exists (yc : ndarray C),
    let y := np_real yc in
    let idx := tabulate (shape y) (violates y (threshhold a) (deref st1 (l_mask l))) in
    let x_old := deref st1 (x l) in
    let x_base := if takes_baseline a then y else x_old in
    let x_prev := match k with 0 => y | _ => x_old end in
    ifft2 (y_hat l) = OK yc /\
    violations y (threshhold a) (deref st1 (l_mask l)) = OK idx /\
    valid_mode a /\
    shape x_base = shape y /\
    (k = 0 -> x_old = np_zeros (shape (deref st (mag a)))) /\
    (is_mode a "gs" = false ->
     errors l' = errors l ++ [sum_sq (map (flat x_base) (selected idx))]) /\
    deref st2 (x l')
    = tabulate (shape y)
        (fun q => if flat idx q
                  then correction a (flat x_prev q) (flat y q)
                  else flat x_base q).
Proof.
  intros Va H1 H2.
  destruct (@fienup_run_facts a st k st1 l Va H1)
    as (st0 & l0 & E0 & E & HI0 & HI & _ & _ & _ & _ & X).
  pose proof HI as (Hm & Hmx & Hkx & Hx & Sk & Bs & _).
  destruct (@fienup_step_inv a (S k) l st1 st2 l' Hm Hx H2)
    as (yc & idx & x_hat & e & Ey & Ev & Sxo & _ & _ & Eh & _ & _ & _ & Exl & _ & Ee & Eerr & _).
  exists yc. cbv zeta.
  assert (Hl : length (heap st1) < length (heap st1 ++ [np_real yc]))
    by (rewrite length_app; cbn; lia).
  unfold deref in *.
  rewrite nth_snoc_old in Ev by lia.
  apply ifft2_shape in Ey as Sy. destruct Sy as [Sy _].
  assert (Bv : bshape (shape (np_real yc)) (shape (nth (l_mask l) (heap st1) empty_array))
               = Some (shape (np_real yc))).
  { cbn [shape np_real map1 tabulate]. rewrite Sy, Sk. now apply bshape_sym. }
  rewrite (violations_ok _ _ _ Bv) in Ev. inversion Ev as [Ei]. clear Ev.
  assert (Eb : nth (if takes_baseline a then length (heap st1) else x l)
                   (heap st1 ++ [np_real yc]) empty_array
               = if takes_baseline a then np_real yc
                 else nth (x l) (heap st1) empty_array).
  { destruct (takes_baseline a); [apply nth_snoc_last|now apply nth_snoc_old]. }
  assert (Ep : nth match x_p l return loc with None => length (heap st1) | Some _ => x l end
                   (heap st1 ++ [np_real yc]) empty_array
               = match k with 0 => np_real yc | _ => nth (x l) (heap st1) empty_array end).
  { destruct k as [|n].
    - cbn in E. unfold ret in E. inversion E; subst.
      destruct (fienup_setup_inv Va E0) as (_ & _ & _ & -> & _). apply nth_snoc_last.
    - destruct (X ltac:(lia)) as [_ Xp]. destruct (x_p l); [|contradiction].
      now apply nth_snoc_old. }
  rewrite Eb in *. rewrite Ep in Eh.
  repeat match goal with |- _ /\ _ => split end; auto.
  - now apply violations_ok.
  - rewrite Sxo, <- Ei. reflexivity.
  - intros ->. cbn in E. unfold ret in E. inversion E; subst.
    destruct (fienup_setup_inv Va E0) as (_ & _ & _ & _ & _ & _ & _ & Ez & _). exact Ez.
  - intros G. rewrite G in Eerr. rewrite Ee, Eerr, <- Ei. reflexivity.
  - rewrite Eh, Exl. rewrite nth_list_set_eq by (destruct (takes_baseline a); lia).
    rewrite Sxo, <- Ei. reflexivity.
Qed.

Lemma truthy_spec (r : R) : truthy r = true <-> r <> 0%R.
Proof.
  unfold truthy, Reqb. destruct (Req_dec_T r 0); cbn; split; congruence.
Qed.

(** C4 (as amended).  In pass [k + 1] of the loop, [y] being the real part
    of the inverse transform of the current [y_hat]: the violation set is
    [(y < threshhold AND mask) OR (NOT mask)], element by element; and the
    [x] held at the end of the pass is, on the violation set,
    [x_prev - beta * y] in modes input-output and hybrid ([x_prev] is [y] in
    the first pass and the previous pass's [x] afterwards),
    [y - beta * y] in mode output-output, the difference line 98 evaluates,
    and [0] in mode gs; off the violation set it is [y] in modes
    output-output, hybrid and gs, and the previous pass's [x] (the zero
    array before the first pass) in mode input-output.  Every value is the
    expression the source evaluates; none is simplified. *)
Theorem fienup_iteration_update (a : args) (st : state) (k : nat) (st1 : state) (l : locals)
    (st2 : state) (l' : locals) :
  valid_args st a ->
  fienup_run k a st = (st1, OK l) ->
  fienup_step a (S k) l st1 = (st2, OK l') ->
  exists (yc : ndarray C) (indices : ndarray bool),
    let y := np_real yc in
    let maskv := deref st1 (l_mask l) in
    let x_old := deref st1 (x l) in
    let x_prev := match k with 0 => y | _ => x_old end in
    let x_new := deref st2 (x l') in
    ifft2 (y_hat l) = OK yc /\
    violations y (threshhold a) maskv = OK indices /\
    shape indices = shape y /\ shape x_new = shape y /\
    (k = 0 -> x_old = np_zeros (shape (deref st (mag a)))) /\
    forall q, q < size_of (shape y) ->
      flat indices q
      = (Rltb (flat y q) (threshhold a) && truthy (bflat maskv (shape y) q))
        || negb (truthy (bflat maskv (shape y) q)) /\
      (flat indices q = true ->
         (mode a = "input-output"%string \/ mode a = "hybrid"%string ->
            flat x_new q = (flat x_prev q - beta a * flat y q)%R) /\
         (mode a = "output-output"%string ->
            flat x_new q = (flat y q - beta a * flat y q)%R) /\
         (mode a = "gs"%string -> flat x_new q = 0%R)) /\
      (flat indices q = false ->
         (mode a = "input-output"%string -> flat x_new q = flat x_old q) /\
         (mode a <> "input-output"%string -> flat x_new q = flat y q)).
Proof.
  intros Va H1 H2.
  destruct (@fienup_iteration_inv a st k st1 l st2 l' Va H1 H2)
    as (yc & Ey & Ev & Hm & Sb & Ez & _ & En).
  exists yc. eexists. cbv zeta. split; [exact Ey|]. split; [exact Ev|].
  rewrite En. cbn [shape tabulate np_real map1].
  split; [reflexivity|]. split; [reflexivity|]. split; [exact Ez|].
  intros q Hq. rewrite !flat_tabulate by exact Hq.
  split; [reflexivity|].
  set (v := violates _ _ _ q). clearbody v.
  unfold correction, takes_baseline.
  destruct Hm as [Hm|[Hm|[Hm|Hm]]]; decide_modes Hm; cbn [orb];
    split; intros ->; repeat split;
    try (intros [E|E]); try (intros E); try discriminate E;
    try congruence; reflexivity.
Qed.

(** C4, counterexample to the claim as worded ([(1 - beta) * y]).  With the
    default [beta = 0.8] and [y = 3.0] at a pixel of the violation set
    (here one the mask leaves out), line 98 stores
    [3.0 - 0.8 * 3.0 = 0.5999999999999996], which is below
    [(1 - 0.8) * 3.0 = 0.5999999999999999]. *)
Lemma fienup_iteration_update_counterexample :
  let beta := B64.lit 0x1.999999999999ap-1 in
  let y := B64.lit 3 in
  B64.violates y B64.zero B64.zero = true /\
  B64.correction "output-output" beta y y = B64.lit 0x1.333333333333p-1 /\
  B64.spec_output_output beta y = B64.lit 0x1.3333333333332p-1 /\
  B64.ltb (B64.correction "output-output" beta y y)
          (B64.spec_output_output beta y) = true.
Proof. vm_compute. repeat split. Qed.


Lemma fienup_run_succ (a : args) (k : nat) (st : state) :
  fienup_run (S k) a st = (l <- fienup_run k a ;; fienup_step a (S k) l) st.
Proof.
  unfold fienup_run, bind.
  destruct (fienup_setup a st) as [st0 [l0|e]]; [|reflexivity].
  rewrite fienup_loop_snoc. reflexivity.
Qed.

(** The one-pixel example runs: its first pass returns normally. *)
Lemma example_first_pass (m : string) (b : R) :
  valid_mode (Example.call m b) -> (0 < b)%R ->
  exists st1 l st2 l',
    fienup_run 0 (Example.call m b) Example.st0 = (st1, OK l) /\
    fienup_step (Example.call m b) 1 l st1 = (st2, OK l') /\
    shape (y_hat l) = (1, 1).
Proof.
  intros Hm Hb.
  assert (Va : valid_args Example.st0 (Example.call m b)) by solve_valid.
  assert (Hs : (0 < steps (Example.call m b))%Z) by (cbn; lia).
  assert (Hk : mask_fits Example.st0 (Example.call m b))
    by (intros k [= <-]; reflexivity).
  destruct (@fienup_run_returns (Example.call m b) Example.st0 1 (1, 1) Va Hb Hs Hm Hk)
    as (st2 & l' & E & _); try reflexivity.
  rewrite fienup_run_succ in E. apply bind_ok_inv in E.
  destruct E as (l & st1 & E1 & E2).
  destruct (@fienup_run_facts _ _ _ _ _ Va E1) as (_ & _ & _ & _ & _ & _ & Sy & _).
  exists st1, l, st2, l'. repeat split; auto.
  cbn in Sy. congruence.
Qed.

Lemma fienup_iteration_update_witness :
  let a := Example.call "hybrid" 1 in
  exists st1 l st2 l',
    fienup_run 0 a Example.st0 = (st1, OK l) /\
    fienup_step a 1 l st1 = (st2, OK l') /\
    exists yc, ifft2 (y_hat l) = OK yc /\ shape (deref st2 (x l')) = shape yc.
Proof.
  intros a.
  assert (Hm : valid_mode a) by (right; right; left; reflexivity).
  destruct (@example_first_pass "hybrid" 1 Hm ltac:(lra)) as (st1 & l & st2 & l' & E1 & E2 & _).
  assert (Va : valid_args Example.st0 a) by (subst a; solve_valid).
  destruct (@fienup_iteration_update a Example.st0 0 st1 l st2 l' Va E1 E2)
    as (yc & idx & Ey & _ & _ & Sx & _).
  exists st1, l, st2, l'. split; [exact E1|]. split; [exact E2|].
  exists yc. split; [exact Ey|exact Sx].
Defined.

(* ===================================================================== *)
(** ** Values of the one-pixel example *)
(* ===================================================================== *)

Lemma dft_phase_origin (s : nat * nat) (p : nat) : dft_phase s 0 p = 0%R.
Proof.
  unfold dft_phase. rewrite Nat.Div0.div_0_l, Nat.Div0.mod_0_l. cbn [INR].
  unfold Rdiv. ring.
Qed.

(** On a one-pixel array the inverse transform is the identity. *)
Lemma ifft2_one_pixel (a yc : ndarray C) :
  shape a = (1, 1) -> ifft2 a = OK yc ->
  shape yc = (1, 1) /\ flat (np_real yc) 0 = re (flat a 0).
Proof.
  intros Sa E. unfold ifft2 in E. rewrite Sa in E. cbn [nonempty fst snd Nat.eqb orb negb] in E.
  inversion E as [E']. clear E E'. split; [exact Sa|].
  unfold np_real, map1, dft2. rewrite Sa. cbn [shape tabulate].
  rewrite !flat_tabulate by (cbn; lia).
  cbn [size_of fst snd Nat.mul Nat.add seq map Csum fold_right].
  rewrite dft_phase_origin, Rmult_0_r, Cexp_1j, cos_0, sin_0.
  destruct (flat a 0) as [u v]. unfold Cmul, Cadd, RtoC, C0, re, im. cbn [fst snd INR].
  field.
Qed.

Lemma truthy_zero : truthy 0 = false.
Proof. unfold truthy, Reqb. destruct (Req_dec_T 0 0); [reflexivity|congruence]. Qed.

(** State of the one-pixel example before its first pass. *)
Lemma example_start (m : string) (b : R) (st1 : state) (l : locals) :
  fienup_run 0 (Example.call m b) Example.st0 = (st1, OK l) ->
  flat (y_hat l) 0 = (1%R, 0%R) /\ shape (y_hat l) = (1, 1) /\
  deref st1 (l_mask l) = Example.mask1.
Proof.
  intros E.
  assert (Va : valid_args Example.st0 (Example.call m b)) by solve_valid.
  unfold fienup_run in E. apply bind_ok_inv in E.
  destruct E as (l0 & st0 & E0 & E). cbn in E. unfold ret in E. inversion E; subst; clear E.
  destruct (fienup_setup_inv Va E0)
    as (_ & _ & HI & _ & _ & _ & _ & _ & _ & F & K & _ & phiv & Emul & Ephi).
  destruct (Ephi 1 eq_refl) as [-> _].
  rewrite (@mul_real_complex_ok _ _ (1, 1)) in Emul by reflexivity.
  inversion Emul as [Ey]. clear Emul.
  split; [|split; [reflexivity|]].
  - rewrite flat_tabulate by (cbn; lia).
    unfold bflat, np_exp_1j, map1. cbn [shape tabulate].
    rewrite !flat_tabulate by (cbn; lia).
    cbn. rewrite Cexp_1j, cos_0, sin_0.
    unfold Cmul, RtoC, re, im. cbn [fst snd]. f_equal; ring.
  - rewrite (K 2 eq_refl). unfold deref.
    cbn [Example.st0 heap length] in F.
    destruct (heap st1) as [|h0 [|h1 [|h2 t]]]; try discriminate F.
    cbn in F. inversion F. reflexivity.
Qed.

(* ===================================================================== *)
(** ** C1: the signal-domain error is measured before the correction *)
(* ===================================================================== *)

(** C1 (as amended).  In every pass and every mode except gs, the value
    appended to the error trace is the sum of the squared entries, over the
    violation index set, of [x] as it stands before the correction of lines
    95-100: the fresh [y] in modes output-output and hybrid (line 80 has
    just rebound [x] to it), the [x] left by the previous pass in mode
    input-output. *)
Theorem fienup_signal_error (a : args) (st : state) (k : nat) (st1 : state) (l : locals)
    (st2 : state) (l' : locals) :
  valid_args st a ->
  mode a <> "gs"%string ->
  fienup_run k a st = (st1, OK l) ->
  fienup_step a (S k) l st1 = (st2, OK l') ->
  exists (yc : ndarray C) (indices : ndarray bool),
    let y := np_real yc in
    let x_before := if takes_baseline a then y else deref st1 (x l) in
    ifft2 (y_hat l) = OK yc /\
    violations y (threshhold a) (deref st1 (l_mask l)) = OK indices /\
    errors l' = errors l ++ [sum_sq (map (flat x_before) (selected indices))].
Proof.
  intros Va Hgs H1 H2.
  destruct (@fienup_iteration_inv a st k st1 l st2 l' Va H1 H2)
    as (yc & Ey & Ev & _ & _ & _ & Ee & _).
  exists yc. eexists. cbv zeta. split; [exact Ey|]. split; [exact Ev|].
  assert (G : is_mode a "gs" = false).
  { unfold is_mode. apply String.eqb_neq. exact Hgs. }
  exact (Ee G).
Qed.

Lemma fienup_signal_error_witness :
  let a := Example.call "input-output" 1 in
  mode a <> "gs"%string /\
  exists st1 l st2 l',
    fienup_run 0 a Example.st0 = (st1, OK l) /\
    fienup_step a 1 l st1 = (st2, OK l') /\
    length (errors l') = S (length (errors l)).
Proof.
  intros a.
  assert (Hgs : mode a <> "gs"%string) by discriminate.
  split; [exact Hgs|].
  assert (Hm : valid_mode a) by (left; reflexivity).
  destruct (@example_first_pass "input-output"%string 1%R Hm ltac:(lra))
    as (st1 & l & st2 & l' & E1 & E2 & _).
  assert (Va : valid_args Example.st0 a) by (subst a; solve_valid).
  destruct (@fienup_signal_error a Example.st0 0 st1 l st2 l' Va Hgs E1 E2)
    as (yc & idx & _ & _ & Ee).
  exists st1, l, st2, l'. split; [exact E1|]. split; [exact E2|].
  rewrite Ee, length_app. cbn. lia.
Defined.

(** C1, as stated, fails.  One-pixel call, mode output-output, [beta = 1/2],
    pixel outside the support: the first pass appends [1] (the square of
    [y = 1]), whereas the just-updated [x = 1/2] has squared sum [1/4] over
    the violation set. *)
Lemma fienup_signal_error_counterexample :
  let a := Example.call "output-output" (1 / 2) in
  exists st1 l st2 l' yc indices e,
    fienup_run 0 a Example.st0 = (st1, OK l) /\
    fienup_step a 1 l st1 = (st2, OK l') /\
    ifft2 (y_hat l) = OK yc /\
    violations (np_real yc) (threshhold a) (deref st1 (l_mask l)) = OK indices /\
    errors l' = errors l ++ [e] /\
    e = 1%R /\
    sum_sq (map (flat (deref st2 (x l'))) (selected indices)) = (1 / 4)%R /\
    e <> sum_sq (map (flat (deref st2 (x l'))) (selected indices)).
Proof.
  intros a.
  assert (Hm : valid_mode a) by (right; left; reflexivity).
  destruct (@example_first_pass "output-output"%string (1 / 2)%R Hm ltac:(lra))
    as (st1 & l & st2 & l' & E1 & E2 & _).
  assert (Va : valid_args Example.st0 a) by (subst a; solve_valid).
  destruct (@example_start _ _ _ _ E1) as (Y0 & Sy & Mk).
  destruct (@fienup_iteration_inv a Example.st0 0 st1 l st2 l' Va E1 E2)
    as (yc & Ey & Ev & _ & _ & _ & Ee & En).
  destruct (@ifft2_one_pixel _ _ Sy Ey) as (Syc & Yv). rewrite Y0 in Yv. cbn [re fst] in Yv.
  assert (Hsel : selected (tabulate (shape (np_real yc))
                   (violates (np_real yc) (threshhold a) (deref st1 (l_mask l)))) = [0]).
  { unfold selected. cbn [shape tabulate np_real map1]. rewrite Syc.
    cbn [size_of fst snd Nat.mul Nat.add seq filter].
    rewrite flat_tabulate by (cbn; lia).
    unfold violates. cbn [shape np_real map1 tabulate]. rewrite Syc, Mk.
    unfold bflat. cbn. rewrite truthy_zero, andb_false_r. reflexivity. }
  assert (G : is_mode a "gs" = false) by reflexivity.
  assert (B : takes_baseline a = true) by reflexivity.
  specialize (Ee G). rewrite B, Hsel in Ee. cbn [map] in Ee. rewrite Yv in Ee.
  assert (Hx : flat (deref st2 (x l')) 0 = (1 / 2)%R).
  { rewrite En. cbn [shape np_real map1 tabulate]. rewrite Syc.
    rewrite flat_tabulate by (cbn; lia).
    rewrite flat_tabulate by (cbn; lia).
    unfold violates. cbn [shape np_real map1 tabulate]. rewrite Syc, Mk.
    unfold bflat. cbn [Example.mask1 shape bsrc fst snd Nat.eqb flat data nth Nat.mul Nat.add].
    rewrite truthy_zero, andb_false_r. cbn [orb negb].
    unfold correction. change (is_mode a "hybrid") with false.
    change (is_mode a "input-output") with false.
    change (is_mode a "output-output") with true. cbn [orb].
    fold (np_real yc). rewrite Yv. cbn [beta a Example.call]. lra. }
  exists st1, l, st2, l', yc. eexists. exists (sum_sq [1%R]).
  split; [exact E1|]. split; [exact E2|]. split; [exact Ey|]. split; [exact Ev|].
  split; [exact Ee|]. rewrite Hsel. cbn [map]. rewrite Hx.
  unfold sum_sq, Rsum. cbn [map fold_right]. repeat split; try lra.
Qed.

(* ===================================================================== *)
(** ** C9: the first error entry in mode input-output *)
(* ===================================================================== *)

Lemma flat_zeros (s : nat * nat) (k : nat) : flat (np_zeros s) k = 0%R.
Proof.
  destruct (Nat.lt_ge_cases k (size_of s)) as [Hk|Hk].
  - unfold np_zeros. now rewrite flat_tabulate.
  - unfold flat, np_zeros, tabulate. cbn [data].
    apply nth_overflow. now rewrite length_map, length_seq.
Qed.

Lemma sum_sq_zeros (s : nat * nat) (ks : list nat) :
  sum_sq (map (flat (np_zeros s)) ks) = 0%R.
Proof.
  unfold sum_sq, Rsum. induction ks as [|k ks IH]; cbn [map fold_right]; [reflexivity|].
  rewrite IH, flat_zeros. ring.
Qed.

Lemma first_error_zero (a : args) (st st' : state) (xl : loc) (errs : list R) :
  valid_args st a ->
  mode a = "input-output"%string ->
  fienup_phase_retrieval a st = (st', OK (xl, errs)) ->
  exists rest, errs = 0%R :: rest.
Proof.
  intros Va Hio H. apply fienup_phase_retrieval_ok in H.
  destruct H as (l & E & _ & ->).
  assert (Hs : 1 <= Z.to_nat (steps a)).
  { unfold fienup_run in E. apply bind_ok_inv in E. destruct E as (l0 & st0 & E0 & _).
    destruct (fienup_setup_inv Va E0) as (_ & Hs & _). apply Z.ltb_lt in Hs. lia. }
  destruct (@fienup_run_prefix a st _ 1 st' l Va E Hs) as (st1 & l1 & E1 & P1).
  rewrite fienup_run_succ in E1. apply bind_ok_inv in E1.
  destruct E1 as (l0 & st0 & R0 & S1).
  destruct (@fienup_iteration_inv a st 0 st0 l0 st1 l1 Va R0 S1)
    as (yc & _ & _ & _ & _ & Ez & Ee & _).
  destruct (@fienup_run_facts a st 0 st0 l0 Va R0) as (_ & _ & _ & _ & _ & _ & _ & L0 & _).
  assert (G : is_mode a "gs" = false) by (unfold is_mode; now rewrite Hio).
  assert (B : takes_baseline a = false) by (unfold takes_baseline, is_mode; now rewrite Hio).
  specialize (Ee G). rewrite B, (Ez eq_refl), sum_sq_zeros in Ee.
  destruct (errors l0); [|discriminate L0]. cbn [app] in Ee.
  rewrite Ee in P1. destruct (errors l) as [|e rest]; [discriminate P1|].
  cbn in P1. inversion P1. now exists rest.
Qed.

(** C9.  In mode input-output the first entry of the returned error trace is
    exactly 0: [x] starts as the zero array, line 80 does not rebind it, and
    the error of the first pass is computed from it before any assignment.
    This holds of every call that returns; and a call with [beta > 0],
    [steps > 0], a mask and an initial phase (if supplied) of the shape of a
    non-empty [mag] does return. *)
Theorem fienup_input_output_first_error (a : args) (st : state) :
  valid_args st a ->
  mode a = "input-output"%string ->
  (forall st' xl errs,
     fienup_phase_retrieval a st = (st', OK (xl, errs)) ->
     exists rest, errs = 0%R :: rest) /\
  ((0 < beta a)%R -> (0 < steps a)%Z -> mask_fits st a ->
   y_hat_shape st a = Some (shape (deref st (mag a))) ->
   nonempty (shape (deref st (mag a))) = true ->
   exists st' xl rest, fienup_phase_retrieval a st = (st', OK (xl, 0%R :: rest))).
Proof.
  intros Va Hio. split.
  - intros st' xl errs H. exact (@first_error_zero a st st' xl errs Va Hio H).
  - intros Hb Hs Hk Hy Hne.
    assert (Hm : valid_mode a) by (left; exact Hio).
    destruct (@fienup_run_returns a st (Z.to_nat (steps a)) _ Va Hb Hs Hm Hk Hy Hne)
      as (st' & l & E & _); [reflexivity|].
    assert (H : fienup_phase_retrieval a st = (st', OK (x l, errors l))).
    { apply fienup_phase_retrieval_ok. now exists l. }
    destruct (@first_error_zero a st st' (x l) (errors l) Va Hio H) as (rest & Er).
    exists st', (x l), rest. now rewrite <- Er.
Qed.

Lemma fienup_input_output_first_error_witness :
  let a := Example.call "input-output" 1 in
  (valid_args Example.st0 a /\ mode a = "input-output"%string) /\
  exists st' xl rest, fienup_phase_retrieval a Example.st0 = (st', OK (xl, 0%R :: rest)).
Proof.
  intros a.
  assert (Va : valid_args Example.st0 a) by (subst a; solve_valid).
  assert (Hio : mode a = "input-output"%string) by reflexivity.
  split; [split; assumption|].
  destruct (@fienup_input_output_first_error a Example.st0 Va Hio) as [_ T].
  apply T.
  - cbn; lra.
  - cbn; lia.
  - intros m [= <-]; reflexivity.
  - reflexivity.
  - reflexivity.
Defined.

(* ===================================================================== *)
(** ** C10: the caller's arrays are never written *)
(* ===================================================================== *)

Section Grows.

Variable n : nat.

Lemma grows_ret {A} (v : A) (Q : A -> Prop) : Q v -> grows n (ret v) Q.
Proof. intros Hq st Hn. cbn. repeat split; auto. intros w [= <-]. exact Hq. Qed.

Lemma grows_raise {A} (e : exn) (Q : A -> Prop) : grows n (raise e) Q.
Proof. intros st Hn. cbn. repeat split; auto. discriminate. Qed.

Lemma grows_lift {A} (r : result A) : grows n (lift r) (fun _ => True).
Proof. intros st Hn. cbn. auto. Qed.

Lemma grows_load (l : loc) : grows n (load l) (fun _ => True).
Proof. intros st Hn. cbn. auto. Qed.

Lemma grows_tick : grows n tick (fun _ => True).
Proof. intros st Hn. cbn. auto. Qed.

Lemma grows_print (e : event) : grows n (print e) (fun _ => True).
Proof. intros st Hn. cbn. auto. Qed.

Lemma grows_when_print (b : bool) (e : event) : grows n (when b (print e)) (fun _ => True).
Proof. intros st Hn. rewrite when_print. cbn. auto. Qed.

Lemma grows_assert (b : bool) (msg : string) : grows n (assert b msg) (fun _ => True).
Proof. intros st Hn. destruct b; cbn; auto. Qed.

Lemma grows_rand (s : nat * nat) : grows n (np_random_rand s) (fun _ => True).
Proof. intros st Hn. cbn. auto. Qed.

Lemma grows_alloc (a : ndarray R) : grows n (alloc a) (fun v => n <= v).
Proof.
  intros st Hn. cbn. rewrite length_app. repeat split; [lia| |].
  - rewrite firstn_app. replace (n - length (heap st)) with 0 by lia.
    cbn. now rewrite app_nil_r.
  - intros v [= <-]. exact Hn.
Qed.

Lemma grows_store (l : loc) (a : ndarray R) : n <= l -> grows n (store l a) (fun _ => True).
Proof.
  intros Hl st Hn. cbn. rewrite length_list_set. repeat split; auto.
  now apply firstn_list_set.
Qed.

Lemma grows_bind {A B} (m : M A) (k : A -> M B) (Q1 : A -> Prop) (Q : B -> Prop) :
  grows n m Q1 -> (forall v, Q1 v -> grows n (k v) Q) -> grows n (bind m k) Q.
Proof.
  intros Hm Hk st Hn. destruct (Hm st Hn) as (L1 & F1 & P1). unfold bind.
  destruct (m st) as [st1 [v|e]]; cbn [fst snd] in *.
  - destruct (Hk v (P1 v eq_refl) st1 L1) as (L2 & F2 & P2).
    repeat split; auto. congruence.
  - repeat split; auto. discriminate.
Qed.

Lemma grows_weaken {A} (m : M A) (Q Q' : A -> Prop) :
  grows n m Q -> (forall v, Q v -> Q' v) -> grows n m Q'.
Proof.
  intros Hm Hq st Hn. destruct (Hm st Hn) as (L & F & P). repeat split; auto.
Qed.

Lemma grows_bind_any {A B} (m : M A) (k : A -> M B) (Q : B -> Prop) :
  grows n m (fun _ => True) -> (forall v, grows n (k v) Q) -> grows n (bind m k) Q.
Proof. intros Hm Hk. eapply grows_bind; [exact Hm|]. intros v _. apply Hk. Qed.

Lemma grows_bind_alloc {B} (a : ndarray R) (k : loc -> M B) (Q : B -> Prop) :
  (forall v, n <= v -> grows n (k v) Q) -> grows n (bind (alloc a) k) Q.
Proof. intros Hk. eapply grows_bind; [apply grows_alloc|exact Hk]. Qed.

Lemma grows_alloc_any (a : ndarray R) : grows n (alloc a) (fun _ => True).
Proof. eapply grows_weaken; [apply grows_alloc|auto]. Qed.

End Grows.

Ltac grows_auto :=
  repeat first
    [ apply grows_bind_alloc; intros
    | apply grows_bind_any; [|intros]
    | apply grows_load | apply grows_tick | apply grows_print
    | apply grows_when_print | apply grows_assert | apply grows_rand
    | apply grows_lift | apply grows_raise | apply grows_alloc_any
    | apply grows_store
    | apply grows_ret
    | match goal with
      | |- grows _ (if ?b then _ else _) _ => destruct b
      | |- grows _ (match ?o with Some _ => _ | None => _ end) _ => destruct o
      end ].

Lemma fienup_step_grows (n : nat) (a : args) (i : nat) (l : locals) :
  n <= x l -> grows n (fienup_step a i l) (fun l' => n <= x l').
Proof.
  intros Hx. unfold fienup_step, np_fft_ifft2, np_fft_fft2.
  grows_auto; cbn [x]; try exact I;
    repeat match goal with |- context [if ?b then _ else _] => destruct b end; lia.
Qed.

Lemma fienup_loop_grows (n : nat) (a : args) (k i : nat) (l : locals) :
  n <= x l -> grows n (fienup_loop a k i l) (fun l' => n <= x l').
Proof.
  revert i l. induction k as [|k IH]; intros i l Hx; cbn [fienup_loop].
  - now apply grows_ret.
  - eapply grows_bind; [now apply fienup_step_grows|]. intros l1 H1. now apply IH.
Qed.

Lemma fienup_setup_grows (n : nat) (a : args) :
  grows n (fienup_setup a) (fun l => n <= x l).
Proof.
  unfold fienup_setup. grows_auto; cbn [x]; auto.
Qed.

Lemma fienup_phase_retrieval_grows (n : nat) (a : args) :
  grows n (fienup_phase_retrieval a) (fun _ => True).
Proof.
  unfold fienup_phase_retrieval, fienup_run.
  eapply grows_bind.
  - eapply grows_bind; [apply fienup_setup_grows|].
    intros l Hl. now apply fienup_loop_grows.
  - intros l _. now apply grows_ret.
Qed.

(** C10.  Whatever the call does, returning or raising, the heap it leaves
    behind starts with the caller's heap unchanged: every array that existed
    before the call, in particular [mag] and a supplied [mask] or
    [init_phi], holds the same values afterwards; the in-place assignments
    only hit arrays the call created itself. *)
Theorem fienup_frame (a : args) (st : state) (r : loc) :
  valid_ref st r ->
  let st' := fst (fienup_phase_retrieval a st) in
  firstn (length (heap st)) (heap st') = heap st /\
  deref st' r = deref st r.
Proof.
  intros Hr st'.
  destruct (@fienup_phase_retrieval_grows (length (heap st)) a st (le_n _)) as (L & F & _).
  fold st' in L, F. rewrite firstn_all in F. split; [exact F|].
  unfold deref, valid_ref in *.
  pose proof (firstn_skipn (length (heap st)) (heap st')) as S.
  rewrite F in S. rewrite <- S. apply app_nth1. exact Hr.
Qed.

Lemma fienup_frame_witness :
  let a := Example.call "hybrid" 1 in
  let st' := fst (fienup_phase_retrieval a Example.st0) in
  valid_ref Example.st0 (mag a) /\
  deref st' (mag a) = Example.mag1 /\ deref st' 1 = Example.phi1 /\
  deref st' 2 = Example.mask1.
Proof.
  intros a st'.
  assert (V0 : valid_ref Example.st0 0) by (unfold valid_ref; cbn; lia).
  assert (V1 : valid_ref Example.st0 1) by (unfold valid_ref; cbn; lia).
  assert (V2 : valid_ref Example.st0 2) by (unfold valid_ref; cbn; lia).
  split; [exact V0|].
  destruct (@fienup_frame a Example.st0 0 V0) as [_ D0].
  destruct (@fienup_frame a Example.st0 1 V1) as [_ D1].
  destruct (@fienup_frame a Example.st0 2 V2) as [_ D2].
  repeat split; assumption.
Defined.

(* ===================================================================== *)
(** ** C8: with a supplied initial phase no random source is consulted *)
(* ===================================================================== *)

Section RngFree.











End RngFree.







(* ===================================================================== *)
(** ** C3: output-output with [beta = 1] against Gerchberg-Saxton *)
(* ===================================================================== *)


(** *** The arithmetic of the update at [beta = 1] *)



Lemma b64_one_lit : B64.lit 1 = B64.one.
Proof. vm_compute. reflexivity. Qed.




(** *** The two runs *)











(* ===================================================================== *)
(** ** Further properties of the routine *)
(* ===================================================================== *)

Lemma fienup_run_grows (n k : nat) (a : args) :
  grows n (fienup_run k a) (fun l => n <= x l).
Proof.
  unfold fienup_run. eapply grows_bind; [apply fienup_setup_grows|].
  intros l Hl. now apply fienup_loop_grows.
Qed.

(** A returning call has run at least one pass; its last pass produced the
    returned reference and trace. *)
Lemma fienup_last_pass (a : args) (st st' : state) (xl : loc) (errs : list R) :
  valid_args st a ->
  fienup_phase_retrieval a st = (st', OK (xl, errs)) ->
  exists k st1 l l',
    Z.to_nat (steps a) = S k /\
    fienup_run k a st = (st1, OK l) /\
    fienup_step a (S k) l st1 = (st', OK l') /\
    fienup_run (S k) a st = (st', OK l') /\
    xl = x l' /\ errs = errors l'.
Proof.
  intros Va H. apply fienup_phase_retrieval_ok in H.
  destruct H as (l' & E & -> & ->).
  assert (Hs : 0 < Z.to_nat (steps a)).
  { unfold fienup_run in E. apply bind_ok_inv in E. destruct E as (l0 & st0 & E0 & _).
    destruct (fienup_setup_inv Va E0) as (_ & Hs & _). apply Z.ltb_lt in Hs. lia. }
  destruct (Z.to_nat (steps a)) as [|k] eqn:En; [lia|].
  pose proof E as E'. rewrite fienup_run_succ in E. apply bind_ok_inv in E.
  destruct E as (l & st1 & E1 & E2).
  exists k, st1, l, l'. repeat split; auto.
Qed.

(** X1.  A call that returns has computed exactly two transforms per
    iteration (one inverse, one forward): [2 * steps] in all. *)
Theorem fienup_transform_count (a : args) (st st' : state) (xl : loc) (errs : list R) :
  valid_args st a ->
  fienup_phase_retrieval a st = (st', OK (xl, errs)) ->
  transforms st' = 2 * Z.to_nat (steps a) + transforms st.
Proof.
  intros Va H. apply fienup_phase_retrieval_ok in H.
  destruct H as (l & E & _).
  destruct (@fienup_run_facts a st _ st' l Va E) as (st0 & l0 & _ & _ & _ & _ & _ & _ & _ & T & _).
  exact T.
Qed.

(** The one-pixel example returns, in every valid mode. *)
Lemma example_returns (m : string) (b : R) :
  valid_mode (Example.call m b) -> (0 < b)%R ->
  exists st' xl errs,
    fienup_phase_retrieval (Example.call m b) Example.st0 = (st', OK (xl, errs)) /\
    shape (deref st' xl) = (1, 1).
Proof.
  intros Hm Hb.
  assert (Va : valid_args Example.st0 (Example.call m b)) by solve_valid.
  assert (Hs : (0 < steps (Example.call m b))%Z) by (cbn; lia).
  assert (Hk : mask_fits Example.st0 (Example.call m b))
    by (intros k [= <-]; reflexivity).
  destruct (@fienup_run_returns (Example.call m b) Example.st0 1 (1, 1) Va Hb Hs Hm Hk)
    as (st' & l & E & _ & _ & _ & X); try reflexivity.
  exists st', (x l), (errors l). split; [|apply X; lia].
  apply fienup_phase_retrieval_ok. now exists l.
Qed.

Lemma fienup_transform_count_witness :
  let a := Example.call "gs" 1 in
  valid_args Example.st0 a /\
  exists st' xl errs,
    fienup_phase_retrieval a Example.st0 = (st', OK (xl, errs)) /\ transforms st' = 2.
Proof.
  intros a.
  assert (Va : valid_args Example.st0 a) by (subst a; solve_valid).
  split; [exact Va|].
  assert (Hm : valid_mode a) by (right; right; right; reflexivity).
  destruct (@example_returns "gs"%string 1%R Hm ltac:(lra)) as (st' & xl & errs & E & Sx).
  exists st', xl, errs. split; [exact E|].
  exact (@fienup_transform_count a Example.st0 st' xl errs Va E).
Defined.

(** X2.  The array a call returns is one the call created: its reference
    was not bound in the caller's heap, and it is bound in the final one.
    So the result never shares storage with [mag], [mask] or [init_phi]. *)
Theorem fienup_result_fresh (a : args) (st st' : state) (xl : loc) (errs : list R) :
  valid_args st a ->
  fienup_phase_retrieval a st = (st', OK (xl, errs)) ->
  ~ valid_ref st xl /\ valid_ref st' xl.
Proof.
  intros Va H. apply fienup_phase_retrieval_ok in H.
  destruct H as (l & E & -> & _).
  destruct (@fienup_run_grows (length (heap st)) (Z.to_nat (steps a)) a st (le_n _))
    as (_ & _ & Q).
  rewrite E in Q. specialize (Q l eq_refl).
  destruct (@fienup_run_facts a st _ st' l Va E) as (st0 & l0 & _ & _ & _ & HI & _).
  destruct HI as (_ & _ & _ & Hx & _).
  unfold valid_ref. split; [lia|exact Hx].
Qed.

Lemma fienup_result_fresh_witness :
  let a := Example.call "input-output" 1 in
  valid_args Example.st0 a /\
  exists st' xl errs,
    fienup_phase_retrieval a Example.st0 = (st', OK (xl, errs)) /\
    6 <= xl /\ valid_ref st' xl.
Proof.
  intros a.
  assert (Va : valid_args Example.st0 a) by (subst a; solve_valid).
  split; [exact Va|].
  assert (Hm : valid_mode a) by (left; reflexivity).
  destruct (@example_returns "input-output"%string 1%R Hm ltac:(lra)) as (st' & xl & errs & E & Sx).
  exists st', xl, errs. split; [exact E|].
  destruct (@fienup_result_fresh a Example.st0 st' xl errs Va E) as [N V].
  split; [|exact V]. unfold valid_ref in N. cbn in N. lia.
Defined.

(** X3.  The shape of the returned [x] is the shape NumPy obtains by
    broadcasting [mag] against [init_phi] (the shape of [mag] when the phase
    is sampled), in every mode. *)
Theorem fienup_result_broadcast_shape (a : args) (st st' : state) (xl : loc) (errs : list R) :
  valid_args st a ->
  fienup_phase_retrieval a st = (st', OK (xl, errs)) ->
  y_hat_shape st a = Some (shape (deref st' xl)).
Proof.
  intros Va H.
  destruct (fienup_last_pass Va H) as (k & st1 & l & l' & _ & _ & _ & E & -> & _).
  destruct (@fienup_run_facts a st _ st' l' Va E) as (st0 & l0 & _ & _ & _ & _ & Sy & _ & _ & _ & X).
  destruct (X ltac:(lia)) as [Sx _]. now rewrite Sx.
Qed.

Lemma fienup_result_broadcast_shape_witness :
  let a := Example.call_wide "output-output" in
  valid_args Example.st0 a /\
  exists st' xl errs,
    fienup_phase_retrieval a Example.st0 = (st', OK (xl, errs)) /\
    shape (deref st' xl) = (1, 2).
Proof.
  intros a.
  assert (Va : valid_args Example.st0 a) by (subst a; solve_valid).
  split; [exact Va|].
  assert (Hm : valid_mode a) by (right; left; reflexivity).
  assert (Hb : (0 < beta a)%R) by (cbn; lra).
  assert (Hs : (0 < steps a)%Z) by (cbn; lia).
  assert (Hk : mask_fits Example.st0 a) by (intros m [= <-]; reflexivity).
  destruct (@fienup_run_returns a Example.st0 1 (1, 2) Va Hb Hs Hm Hk)
    as (st' & l & E & _); try reflexivity; try discriminate.
  assert (H : fienup_phase_retrieval a Example.st0 = (st', OK (x l, errors l))).
  { apply fienup_phase_retrieval_ok. now exists l. }
  exists st', (x l), (errors l). split; [exact H|].
  pose proof (@fienup_result_broadcast_shape a Example.st0 st' (x l) (errors l) Va H) as S.
  cbn in S. congruence.
Defined.

Lemma Rsum_nonneg (l : list R) : Forall (fun r => (0 <= r)%R) l -> (0 <= Rsum l)%R.
Proof.
  unfold Rsum. induction 1 as [|r l Hr _ IH]; cbn [fold_right]; lra.
Qed.

Lemma sum_sq_nonneg (v : list R) : (0 <= sum_sq v)%R.
Proof.
  unfold sum_sq. apply Rsum_nonneg. apply Forall_forall.
  intros r Hr. apply in_map_iff in Hr. destruct Hr as (u & <- & _). apply pow2_ge_0.
Qed.

Lemma np_mean_sq_nonneg (d : ndarray R) :
  (0 <= np_mean (map1 (fun r => (r ^ 2)%R) d))%R.
Proof.
  unfold np_mean. cbn [shape map1 tabulate]. unfold Rdiv. apply Rmult_le_pos.
  - apply Rsum_nonneg. apply Forall_forall. intros r Hr.
    apply in_map_iff in Hr. destruct Hr as (k & <- & Hk). apply in_seq in Hk.
    fold (map1 (fun r => (r ^ 2)%R) d). unfold map1.
    rewrite flat_tabulate by lia. apply pow2_ge_0.
  - destruct (size_of (shape d)) as [|n] eqn:En.
    + cbn [INR]. rewrite Rinv_0. lra.
    + apply Rlt_le, Rinv_0_lt_compat, lt_0_INR. lia.
Qed.

Lemma magnitude_error_nonneg (x_hat : ndarray C) (m : ndarray R) (e : R) :
  magnitude_error x_hat m = OK e -> (0 <= e)%R.
Proof.
  unfold magnitude_error. destruct (map2 Rminus (np_abs x_hat) m) as [d|]; [|discriminate].
  cbn [rbind]. intros [= <-]. apply np_mean_sq_nonneg.
Qed.

Lemma fienup_loop_errors_nonneg (a : args) (n i : nat) (l : locals) (st st' : state) (l' : locals) :
  Inv a l st ->
  fienup_loop a n i l st = (st', OK l') ->
  Forall (fun e => Rltb e 0 = false) (errors l) ->
  Forall (fun e => Rltb e 0 = false) (errors l').
Proof.
  revert i l st. induction n as [|n IH]; intros i l st HI H F.
  - cbn in H. unfold ret in H. now inversion H; subst.
  - cbn [fienup_loop] in H. apply bind_ok_inv in H.
    destruct H as (l1 & st1 & H1 & H2).
    destruct (@fienup_step_facts a i l st st1 l1 HI H1) as (HI1 & _).
    apply (IH _ _ _ HI1 H2).
    pose proof HI as (Hm & _ & _ & Hx & _).
    destruct (@fienup_step_inv a i l st st1 l1 Hm Hx H1)
      as (yc & idx & x_hat & e & _ & _ & _ & _ & _ & _ & _ & _ & _ & _ & _ & Ee & Eerr & _).
    rewrite Ee. apply Forall_app. split; [exact F|]. constructor; [|constructor].
    apply Rltb_false.
    destruct (is_mode a "gs").
    + exact (magnitude_error_nonneg _ _ Eerr).
    + rewrite Eerr. apply sum_sq_nonneg.
Qed.

(** *** Signs in binary64 *)

(** Rounding a magnitude with a plus sign never gives a number below zero. *)
Lemma b64_round_aux_sign (mx ex : Z) (lx : location) :
  B64.ltb (binary_round_aux B64.prec B64.emax false mx ex lx) B64.zero = false.
Proof.
  unfold binary_round_aux.
  destruct (shr_fexp B64.prec B64.emax mx ex lx) as [mrs e1].
  destruct (shr_fexp B64.prec B64.emax _ e1 loc_Exact) as [mrs2 e2].
  destruct (shr_m mrs2); [reflexivity| |reflexivity].
  destruct (e2 <=? B64.emax - B64.prec)%Z; reflexivity.
Qed.

(** A square is never below zero (it is NaN for NaN). *)
Lemma b64_square_sign (x : B64.binary64) :
  B64.ltb (B64.mul x x) B64.zero = false.
Proof.
  destruct x as [[|]|[|]| |s m e]; try reflexivity.
  unfold B64.mul, SFmul. rewrite xorb_nilpotent. apply b64_round_aux_sign.
Qed.

(** Neither is the sum of two numbers that are not below zero. *)
Lemma b64_add_sign (x y : B64.binary64) :
  B64.ltb x B64.zero = false -> B64.ltb y B64.zero = false ->
  B64.ltb (B64.add x y) B64.zero = false.
Proof.
  destruct x as [[|]|[|]| |[|] mx ex]; try discriminate;
    destruct y as [[|]|[|]| |[|] my ey]; try discriminate; try reflexivity.
  intros _ _. unfold B64.add, SFadd. cbn [cond_Zopp].
  unfold binary_normalize.
  destruct (shl_align mx ex (Z.min ex ey)) as [a ea].
  destruct (shl_align my ey (Z.min ex ey)) as [b eb]. cbn [fst Z.add].
  unfold binary_round.
  destruct (shl_align _ _ _) as [mz ez]. apply b64_round_aux_sign.
Qed.

(** Nor its quotient by a number above zero. *)
Lemma b64_div_sign (x n : B64.binary64) :
  B64.ltb x B64.zero = false -> B64.ltb B64.zero n = true ->
  B64.ltb (B64.div x n) B64.zero = false.
Proof.
  destruct x as [[|]|[|]| |[|] mx ex]; try discriminate;
    destruct n as [[|]|[|]| |[|] mn en]; try discriminate; try reflexivity.
  intros _ _. unfold B64.div, SFdiv. cbn [xorb].
  destruct (SFdiv_core_binary _ _ _ _ _ _) as [[mz ez] lz].
  apply b64_round_aux_sign.
Qed.

Lemma b64_sum_sq_sign (v : list B64.binary64) :
  B64.ltb (B64.sum_sq v) B64.zero = false.
Proof.
  unfold B64.sum_sq. induction v as [|r v IH]; [reflexivity|].
  cbn [map fold_right]. apply b64_add_sign; [apply b64_square_sign|exact IH].
Qed.

(** X4.  No entry of the returned error trace is negative, in any mode: the
    test [e < 0] fails for each of them.  An entry is a sum of squares
    (line 89) or a mean of squares (line 107); in binary64 a sum of squares
    is never below zero, nor is its quotient by a positive count, whatever
    the data (after an overflow the entry is [inf] or NaN, for which the
    test fails too). *)
Theorem fienup_errors_never_negative (a : args) (st st' : state) (xl : loc) (errs : list R) :
  valid_args st a ->
  fienup_phase_retrieval a st = (st', OK (xl, errs)) ->
  Forall (fun e => Rltb e 0 = false) errs /\
  (forall v : list B64.binary64, B64.ltb (B64.sum_sq v) B64.zero = false) /\
  (forall (v : list B64.binary64) (n : B64.binary64),
     B64.ltb B64.zero n = true ->
     B64.ltb (B64.div (B64.sum_sq v) n) B64.zero = false).
Proof.
  intros Va H. split; [|split].
  - apply fienup_phase_retrieval_ok in H.
    destruct H as (l & E & _ & ->).
    destruct (@fienup_run_facts a st _ st' l Va E) as (st0 & l0 & E0 & EL & HI0 & _).
    destruct (fienup_setup_inv Va E0) as (_ & _ & _ & _ & Ee & _).
    apply (fienup_loop_errors_nonneg _ _ HI0 EL). rewrite Ee. constructor.
  - exact b64_sum_sq_sign.
  - intros v n Hn. apply b64_div_sign; [apply b64_sum_sq_sign|exact Hn].
Qed.

Lemma fienup_errors_never_negative_witness :
  let a := Example.call "gs" 1 in
  valid_args Example.st0 a /\
  exists st' xl errs,
    fienup_phase_retrieval a Example.st0 = (st', OK (xl, errs)) /\
    Forall (fun e => Rltb e 0 = false) errs.
Proof.
  intros a.
  assert (Va : valid_args Example.st0 a) by (subst a; solve_valid).
  split; [exact Va|].
  assert (Hm : valid_mode a) by (right; right; right; reflexivity).
  destruct (@example_returns "gs"%string 1%R Hm ltac:(lra)) as (st' & xl & errs & E & Sx).
  exists st', xl, errs. split; [exact E|].
  exact (proj1 (@fienup_errors_never_negative a Example.st0 st' xl errs Va E)).
Defined.

(** X5.  In mode gs the entry appended by a pass is the mean squared
    difference between the modulus of the forward transform of the
    just-updated [x] and [mag] (lines 103-107): unlike the signal-domain
    error of the other modes, it is measured after the correction. *)
Theorem fienup_gs_error (a : args) (st : state) (k : nat) (st1 : state) (l : locals)
    (st2 : state) (l' : locals) :
  valid_args st a ->
  mode a = "gs"%string ->
  fienup_run k a st = (st1, OK l) ->
  fienup_step a (S k) l st1 = (st2, OK l') ->
  exists (x_hat : ndarray C) (e : R),
    fft2 (map1 RtoC (deref st2 (x l'))) = OK x_hat /\
    magnitude_error x_hat (deref st (mag a)) = OK e /\
    errors l' = errors l ++ [e].
Proof.
  intros Va Hgs H1 H2.
  destruct (@fienup_run_facts a st k st1 l Va H1)
    as (st0 & l0 & _ & _ & _ & HI & _ & _ & Dm & _).
  pose proof HI as (Hm & _ & _ & Hx & _).
  destruct (@fienup_step_facts a (S k) l st1 st2 l' HI H2) as (_ & _ & _ & _ & Dm2 & _).
  destruct (@fienup_step_inv a (S k) l st1 st2 l' Hm Hx H2)
    as (yc & idx & x_hat & e & _ & _ & _ & Ef & _ & Eh & _ & _ & _ & Exl & _ & Ee & Eerr & _).
  assert (G : is_mode a "gs" = true) by (unfold is_mode; now rewrite Hgs).
  rewrite G in Eerr. rewrite <- Eh in Eerr. fold (deref st2 (mag a)) in Eerr.
  rewrite Dm2, Dm in Eerr.
  exists x_hat, e. split; [|split; [exact Eerr|exact Ee]].
  unfold deref. rewrite Eh, Exl.
  rewrite nth_list_set_eq; [exact Ef|].
  rewrite length_app. cbn. destruct (takes_baseline a); lia.
Qed.

Lemma fienup_gs_error_witness :
  let a := Example.call "gs" 1 in
  (valid_args Example.st0 a /\ mode a = "gs"%string) /\
  exists st1 l st2 l' e,
    fienup_run 0 a Example.st0 = (st1, OK l) /\
    fienup_step a 1 l st1 = (st2, OK l') /\
    errors l' = errors l ++ [e].
Proof.
  intros a.
  assert (Va : valid_args Example.st0 a) by (subst a; solve_valid).
  split; [split; [exact Va|reflexivity]|].
  assert (Hm : valid_mode a) by (right; right; right; reflexivity).
  destruct (@example_first_pass "gs"%string 1%R Hm ltac:(lra))
    as (st1 & l & st2 & l' & E1 & E2 & _).
  destruct (@fienup_gs_error a Example.st0 0 st1 l st2 l' Va eq_refl E1 E2)
    as (x_hat & e & _ & _ & Ee).
  exists st1, l, st2, l', e. auto.
Defined.

Lemma bdim_zero (b n : nat) : bdim 0 b = Some n -> n = 0.
Proof.
  unfold bdim. destruct (0 =? b) eqn:E0; [congruence|]. cbn [Nat.eqb].
  destruct (b =? 1); congruence.
Qed.

Lemma bshape_empty (s1 s2 s : nat * nat) :
  bshape s1 s2 = Some s -> nonempty s1 = false -> nonempty s = false.
Proof.
  destruct s1 as [h1 w1], s2 as [h2 w2]. unfold bshape, nonempty. cbn [fst snd].
  destruct (bdim h1 h2) as [h|] eqn:Eh; [|discriminate].
  destruct (bdim w1 w2) as [w|] eqn:Ew; [|discriminate].
  intros [= <-] Hn. cbn [fst snd]. apply negb_false_iff in Hn. apply negb_false_iff.
  apply orb_true_iff in Hn. apply orb_true_iff.
  destruct Hn as [Hn|Hn]; apply Nat.eqb_eq in Hn; subst.
  - left. apply bdim_zero in Eh. now subst.
  - right. apply bdim_zero in Ew. now subst.
Qed.

(** The shape of [y_hat] after a successful initialisation. *)
Lemma fienup_setup_y_hat_shape (a : args) (st st0 : state) (l0 : locals) (s : nat * nat) :
  valid_args st a ->
  fienup_setup a st = (st0, OK l0) ->
  y_hat_shape st a = Some s ->
  shape (y_hat l0) = s.
Proof.
  intros Va E0 Hy.
  destruct (fienup_setup_inv Va E0)
    as (_ & _ & _ & _ & _ & _ & _ & _ & _ & _ & _ & Sn & phiv & Emul & Ephi).
  unfold y_hat_shape in Hy. destruct (init_phi a) as [p|] eqn:Ep.
  - destruct (Ephi p eq_refl) as [-> _]. apply map2_shape in Emul.
    cbn [shape np_exp_1j map1 tabulate] in Emul. congruence.
  - rewrite (Sn eq_refl). congruence.
Qed.

Lemma y_hat_shape_phi (a : args) (st : state) (s : nat * nat) :
  y_hat_shape st a = Some s ->
  forall p, init_phi a = Some p ->
    bshape (shape (deref st (mag a))) (shape (deref st p)) <> None.
Proof. intros Hy p Ep. unfold y_hat_shape in Hy. rewrite Ep in Hy. congruence. Qed.

(** X6.  With an empty [mag] (an axis of length zero) and otherwise valid
    arguments the call never returns: [np.fft.ifft2] refuses the zero-length
    axis in the first pass, after the arguments were accepted and the
    arrays initialised, and the [ValueError] reaches the caller. *)
Theorem fienup_empty_mag_raises (a : args) (st : state) (s : nat * nat) :
  valid_args st a -> valid_mode a ->
  (0 < beta a)%R -> (0 < steps a)%Z ->
  mask_fits st a ->
  y_hat_shape st a = Some s ->
  nonempty (shape (deref st (mag a))) = false ->
  exists st',
    fienup_phase_retrieval a st = (st', Err fft_points_error) /\
    transforms st' = 1 + transforms st.
Proof.
  intros Va Hm Hb Hs Hk Hy Hne.
  destruct (fienup_setup_total Va Hb Hs Hm Hk (y_hat_shape_phi _ _ Hy)) as (st0 & l0 & E0).
  pose proof (fienup_setup_y_hat_shape Va E0 Hy) as Sy.
  destruct (fienup_setup_inv Va E0) as (_ & _ & _ & _ & _ & T0 & _).
  assert (Hs' : nonempty s = false).
  { unfold y_hat_shape in Hy. destruct (init_phi a).
    - exact (bshape_empty _ _ Hy Hne).
    - congruence. }
  assert (Ey : ifft2 (y_hat l0) = Err fft_points_error).
  { unfold ifft2. now rewrite Sy, Hs'. }
  destruct (Z.to_nat (steps a)) as [|n] eqn:En; [lia|].
  eexists. split.
  - unfold fienup_phase_retrieval, fienup_run, bind. rewrite E0, En.
    cbn [fienup_loop]. unfold fienup_step, bind. rewrite when_print. mcbn.
    rewrite Ey. reflexivity.
  - cbn [transforms]. lia.
Qed.

Lemma fienup_empty_mag_raises_witness :
  let a := EmptyExample.call in
  let st := EmptyExample.st0 in
  nonempty (shape (deref st (mag a))) = false /\
  exists st', fienup_phase_retrieval a st = (st', Err fft_points_error)
              /\ transforms st' = 1.
Proof.
  intros a st. split; [reflexivity|].
  assert (Va : valid_args st a) by (subst a st; solve_valid).
  assert (Hm : valid_mode a) by (right; right; left; reflexivity).
  assert (Hb : (0 < beta a)%R) by (cbn; lra).
  assert (Hs : (0 < steps a)%Z) by (cbn; lia).
  assert (Hk : mask_fits st a) by (intros m [=]).
  destruct (@fienup_empty_mag_raises a st (0, 3) Va Hm Hb Hs Hk eq_refl eq_refl)
    as (st' & E & T).
  exists st'. split; [exact E|exact T].
Defined.

Lemma getitem_shape_mismatch {T} `{Dflt T} (a : ndarray T) (idx : ndarray bool) :
  shape a <> shape idx -> getitem a idx = Err mask_index_error.
Proof. intros Hn. unfold getitem. now rewrite shape_eqb_neq. Qed.

(** X7.  In mode input-output an [init_phi] that broadcasts [y_hat] to a
    shape other than that of [mag] makes the call fail inside its first
    pass: [x] is the zero array of line 55, of the shape of [mag], the
    violation mask has the broadcast shape, and [x[indices]] at line 89
    raises an [IndexError], after the first inverse transform was
    computed.  (The other modes rebind [x] to [y] first and go on.) *)
Theorem fienup_input_output_shape_clash (a : args) (st : state) (p : loc) (s : nat * nat) :
  valid_args st a ->
  mode a = "input-output"%string ->
  (0 < beta a)%R -> (0 < steps a)%Z ->
  mask_fits st a ->
  init_phi a = Some p ->
  bshape (shape (deref st (mag a))) (shape (deref st p)) = Some s ->
  s <> shape (deref st (mag a)) ->
  nonempty s = true ->
  exists st',
    fienup_phase_retrieval a st = (st', Err mask_index_error) /\
    transforms st' = 1 + transforms st.
Proof.
  intros Va Hio Hb Hs Hk Ep Hbs Hne Hn.
  assert (Hm : valid_mode a) by (left; exact Hio).
  assert (Hy : y_hat_shape st a = Some s) by (unfold y_hat_shape; now rewrite Ep).
  destruct (fienup_setup_total Va Hb Hs Hm Hk (y_hat_shape_phi _ _ Hy)) as (st0 & l0 & E0).
  pose proof (fienup_setup_y_hat_shape Va E0 Hy) as Sy.
  destruct (fienup_setup_inv Va E0)
    as (_ & _ & HI & _ & _ & T0 & Dm & Ez & _).
  destruct HI as (_ & Hmx & Hkx & Hx & Sk & Bs & _).
  unfold deref in *.
  assert (Ne : nonempty (shape (y_hat l0)) = true) by now rewrite Sy.
  pose proof (ifft2_nonempty _ Ne) as Ey.
  set (yc := map1 _ (dft2 1 (y_hat l0))) in Ey.
  assert (Syc : shape yc = s) by exact Sy.
  assert (Ev : violations (np_real yc) (threshhold a) (nth (l_mask l0) (heap st0) empty_array)
               = OK (tabulate (shape yc)
                       (violates (np_real yc) (threshhold a)
                                 (nth (l_mask l0) (heap st0) empty_array)))).
  { apply (violations_ok (np_real yc)). cbn [shape np_real map1 tabulate].
    rewrite Syc, Sk, <- Sy. now apply bshape_sym. }
  clearbody yc.
  destruct (Z.to_nat (steps a)) as [|n] eqn:En; [lia|].
  eexists. split.
  - unfold fienup_phase_retrieval, fienup_run, bind. rewrite E0, En.
    cbn [fienup_loop]. unfold fienup_step, bind. rewrite when_print. mcbn.
    rewrite Ey. mcbn. rewrite nth_snoc_last.
    rewrite (nth_snoc_old (heap st0)) by lia. rewrite Ev.
    unfold is_mode. rewrite Hio.
    change ("input-output" =? "output-output")%string with false.
    change ("input-output" =? "hybrid")%string with false.
    change ("input-output" =? "gs")%string with false.
    mcbn. rewrite (nth_snoc_old (heap st0)) by lia.
    rewrite getitem_shape_mismatch.
    + reflexivity.
    + rewrite Ez. cbn [shape np_zeros tabulate]. rewrite Syc. congruence.
  - cbn [transforms]. lia.
Qed.

Lemma fienup_input_output_shape_clash_witness :
  let a := Example.call_wide "input-output" in
  let st := Example.st0 in
  (shape (deref st (mag a)) = (1, 1) /\ shape (deref st 3) = (1, 2)) /\
  exists st', fienup_phase_retrieval a st = (st', Err mask_index_error)
              /\ transforms st' = 1.
Proof.
  intros a st. split; [split; reflexivity|].
  assert (Va : valid_args st a) by (subst a st; solve_valid).
  assert (Hb : (0 < beta a)%R) by (cbn; lra).
  assert (Hs : (0 < steps a)%Z) by (cbn; lia).
  assert (Hk : mask_fits st a) by (intros m [= <-]; reflexivity).
  assert (Hne : (1, 2) <> shape (deref st (mag a))) by discriminate.
  destruct (@fienup_input_output_shape_clash a st 3 (1, 2) Va eq_refl Hb Hs Hk
              eq_refl eq_refl Hne eq_refl)
    as (st' & E & T).
  exists st'. split; [exact E|exact T].
Defined.

(** X8.  The argument checks fire in source order, and the message names
    the first violated one: a non-positive [beta] is reported whatever the
    other arguments; a non-positive [steps] once [beta] is positive; an
    unknown mode once both are positive; a mask of another shape last. *)
Theorem fienup_assertion_order (a : args) (st : state) :
  ((beta a <= 0)%R ->
   fienup_phase_retrieval a st = (st, Err (AssertionError msg_beta))) /\
  ((0 < beta a)%R -> (steps a <= 0)%Z ->
   fienup_phase_retrieval a st = (st, Err (AssertionError msg_steps))) /\
  ((0 < beta a)%R -> (0 < steps a)%Z -> ~ valid_mode a ->
   fienup_phase_retrieval a st = (st, Err (AssertionError msg_mode))) /\
  ((0 < beta a)%R -> (0 < steps a)%Z -> valid_mode a ->
   forall m, mask a = Some m -> shape (deref st m) <> shape (deref st (mag a)) ->
   fienup_phase_retrieval a st = (st, Err (AssertionError msg_shape))).
Proof.
  unfold fienup_phase_retrieval, fienup_run, fienup_setup, bind.
  repeat split.
  - intros Hb. rewrite (@Rltb_false _ _ Hb). reflexivity.
  - intros Hb Hs. rewrite (@Rltb_true _ _ Hb). cbn [assert ret].
    apply Z.ltb_ge in Hs. rewrite Hs. reflexivity.
  - intros Hb Hs Hm. rewrite (@Rltb_true _ _ Hb). cbn [assert ret].
    apply Z.ltb_lt in Hs. rewrite Hs. cbn [assert ret].
    rewrite (@not_valid_mode_test a Hm). reflexivity.
  - intros Hb Hs Hm m Em Hn. rewrite (@Rltb_true _ _ Hb). cbn [assert ret].
    apply Z.ltb_lt in Hs. rewrite Hs. cbn [assert ret].
    apply mode_test_valid in Hm. rewrite Hm. cbn [assert ret].
    rewrite Em. mcbn. unfold deref in Hn.
    rewrite shape_eqb_neq by congruence. reflexivity.
Qed.

Lemma fienup_assertion_order_witness :
  let a := {| mag := 0; init_phi := Some 1; mask := Some 3; threshhold := 0%R;
              beta := 0%R; steps := 0%Z; mode := "fienup"; verbose := false |} in
  (beta a <= 0)%R /\
  fienup_phase_retrieval a Example.st0 = (Example.st0, Err (AssertionError msg_beta)).
Proof.
  intros a.
  assert (Hb : (beta a <= 0)%R) by (cbn; lra).
  split; [exact Hb|].
  destruct (fienup_assertion_order a Example.st0) as (P & _).
  exact (P Hb).
Defined.

(** The initialisation prints nothing and leaves [x_p] unset. *)
Lemma fienup_setup_quiet (a : args) (st st0 : state) (l0 : locals) :
  fienup_setup a st = (st0, OK l0) ->
  stdout st0 = stdout st /\ x_p l0 = None.
Proof.
  intros H. unfold fienup_setup in H.
  destruct (mask a) as [m|], (init_phi a) as [p|]; minv H;
    unfold ret in H; inversion H; subst; clear H; cbn; auto.
Qed.

Lemma div100_succ (n : nat) :
  S n / 100 = n / 100 + (if S n mod 100 =? 0 then 1 else 0).
Proof.
  pose proof (Nat.div_mod_eq n 100) as D.
  pose proof (Nat.mod_upper_bound n 100 ltac:(lia)) as U.
  destruct (Nat.eq_dec (n mod 100) 99) as [E|E].
  - assert (M : 0 = S n mod 100) by (apply (Nat.mod_unique _ 100 (n / 100 + 1)); lia).
    assert (Q : n / 100 + 1 = S n / 100) by (apply (Nat.div_unique _ 100 _ 0); lia).
    rewrite <- M, <- Q. reflexivity.
  - assert (M : S (n mod 100) = S n mod 100) by (apply (Nat.mod_unique _ 100 (n / 100)); lia).
    assert (Q : n / 100 = S n / 100) by (apply (Nat.div_unique _ 100 _ (S (n mod 100))); lia).
    rewrite <- M, <- Q. cbn [Nat.eqb]. lia.
Qed.

Lemma combine_snoc {A B} (l1 : list A) (l2 : list B) (u : A) (v : B) :
  length l1 = length l2 ->
  combine (l1 ++ [u]) (l2 ++ [v]) = combine l1 l2 ++ [(u, v)].
Proof.
  revert l2. induction l1 as [|h t IH]; intros [|h2 t2] L; try discriminate L.
  - reflexivity.
  - cbn. f_equal. apply IH. now inversion L.
Qed.

Lemma progress_snoc (a : args) (counts : list nat) (c : nat) :
  progress a (counts ++ [c])
  = progress a counts ++ [PrintStep (100 * S (length counts)) (steps a); PrintOpen c].
Proof.
  unfold progress. rewrite length_app. cbn [length].
  rewrite Nat.add_1_r, seq_S, combine_snoc by now rewrite length_seq.
  rewrite map_app, concat_app. cbn [map concat fst snd]. now rewrite app_nil_r.
Qed.

(** The output of the run cut after [n] iterations. *)
Lemma fienup_run_stdout (a : args) (st : state) (n : nat) (st' : state) (l : locals) :
  valid_args st a ->
  fienup_run n a st = (st', OK l) ->
  exists counts : list nat,
    length counts = n / 100 /\
    stdout st' = stdout st ++ (if verbose a then progress a counts else []) /\
    forall j, j < length counts ->
      exists stk lk yc idx,
        fienup_run (100 * S j - 1) a st = (stk, OK lk) /\
        ifft2 (y_hat lk) = OK yc /\
        violations (np_real yc) (threshhold a) (deref stk (l_mask lk)) = OK idx /\
        nth j counts 0 = count_true idx.
Proof.
  intros Va. revert st' l. induction n as [|n IH]; intros st' l H.
  - destruct (@fienup_run_facts a st 0 st' l Va H) as (st0 & l0 & E0 & EL & _).
    cbn in EL. unfold ret in EL. inversion EL; subst.
    destruct (@fienup_setup_quiet _ _ _ _ E0) as (S0 & _).
    exists []. split; [reflexivity|]. split.
    + rewrite S0. destruct (verbose a); cbn; now rewrite app_nil_r.
    + cbn. intros j Hj. lia.
  - rewrite fienup_run_succ in H. apply bind_ok_inv in H.
    destruct H as (l1 & st1 & E1 & E2).
    destruct (IH _ _ E1) as (counts & Lc & So & Hn).
    destruct (@fienup_run_facts a st n st1 l1 Va E1)
      as (st0 & l0 & _ & _ & _ & HI & _).
    pose proof HI as (Hm & _ & Hk & Hx & _).
    destruct (@fienup_step_inv a (S n) l1 st1 st' l Hm Hx E2)
      as (yc & idx & x_hat & e & Ey & Ev & _ & _ & _ & _ & _ & _ & _ & _ & _ & _ & _ & Eo).
    rewrite nth_snoc_old in Ev by lia. fold (deref st1 (l_mask l1)) in Ev.
    pose proof (div100_succ n) as D.
    destruct (S n mod 100 =? 0) eqn:Em.
    + apply Nat.eqb_eq in Em.
      assert (Sn : 100 * S (length counts) = S n).
      { pose proof (Nat.div_mod_eq (S n) 100). lia. }
      exists (counts ++ [count_true idx]). split; [rewrite length_app; cbn [length]; lia|]. split.
      * rewrite Eo, So. cbn [andb]. destruct (verbose a).
        -- rewrite progress_snoc, Sn, <- !app_assoc. reflexivity.
        -- now rewrite !app_nil_r.
      * intros j Hj. rewrite length_app in Hj. cbn in Hj.
        destruct (Nat.eq_dec j (length counts)) as [->|Nj].
        -- exists st1, l1, yc, idx. rewrite Sn.
           replace (S n - 1) with n by lia.
           rewrite nth_middle. auto.
        -- rewrite app_nth1 by lia. apply Hn. lia.
    + exists counts. split; [lia|]. split; [|exact Hn].
      rewrite Eo, So. cbn [andb]. now rewrite !app_nil_r.
Qed.

(** X9.  Progress reporting.  A returning call only appends to the output.
    With [verbose] off it prints nothing.  With [verbose] on it prints, in
    each iteration [i = 100, 200, ...] up to [steps] and in no other, two
    lines: ["step i of steps"], then the number of pixels in the violation
    set of that iteration followed by ["open constraints"]. *)
Theorem fienup_progress_lines (a : args) (st st' : state) (xl : loc) (errs : list R) :
  valid_args st a ->
  fienup_phase_retrieval a st = (st', OK (xl, errs)) ->
  exists counts : list nat,
    length counts = Z.to_nat (steps a) / 100 /\
    stdout st' = stdout st ++ (if verbose a then progress a counts else []) /\
    forall j, j < length counts ->
      exists stk lk yc idx,
        fienup_run (100 * S j - 1) a st = (stk, OK lk) /\
        ifft2 (y_hat lk) = OK yc /\
        violations (np_real yc) (threshhold a) (deref stk (l_mask lk)) = OK idx /\
        nth j counts 0 = count_true idx.
Proof.
  intros Va H. apply fienup_phase_retrieval_ok in H.
  destruct H as (l & E & _).
  exact (@fienup_run_stdout a st _ st' l Va E).
Qed.

Lemma fienup_progress_lines_witness :
  let a := {| mag := 0; init_phi := Some 1; mask := Some 2; threshhold := 0%R;
              beta := 1%R; steps := 100%Z; mode := "hybrid"; verbose := true |} in
  valid_args Example.st0 a /\
  exists st' xl errs c,
    fienup_phase_retrieval a Example.st0 = (st', OK (xl, errs)) /\
    stdout st' = [PrintStep 100 100; PrintOpen c].
Proof.
  intros a.
  assert (Va : valid_args Example.st0 a) by (subst a; solve_valid).
  split; [exact Va|].
  assert (Hm : valid_mode a) by (right; right; left; reflexivity).
  assert (Hb : (0 < beta a)%R) by (cbn; lra).
  assert (Hs : (0 < steps a)%Z) by (cbn; lia).
  assert (Hk : mask_fits Example.st0 a) by (intros m [= <-]; reflexivity).
  destruct (@fienup_run_returns a Example.st0 100 (1, 1) Va Hb Hs Hm Hk)
    as (st' & l & E & _); try reflexivity.
  assert (P : fienup_phase_retrieval a Example.st0 = (st', OK (x l, errors l))).
  { apply fienup_phase_retrieval_ok. exists l. auto. }
  destruct (@fienup_progress_lines a Example.st0 st' (x l) (errors l) Va P)
    as (counts & Lc & So & _).
  change (Z.to_nat (steps a) / 100) with 1 in Lc.
  destruct counts as [|c [|c' cs]]; try discriminate Lc.
  exists st', (x l), (errors l), c. split; [exact P|]. exact So.
Defined.

Lemma nth_firstn_eq {A} (n k : nat) (h1 h2 : list A) (d : A) :
  firstn n h1 = firstn n h2 -> k < n -> nth k h1 d = nth k h2 d.
Proof.
  intros E Hk.
  pose proof (nth_firstn n h1 k d) as N1. pose proof (nth_firstn n h2 k d) as N2.
  apply Nat.ltb_lt in Hk. rewrite Hk in N1, N2. rewrite <- N1, <- N2, E. reflexivity.
Qed.

(** The default mask is the all-ones array of the shape of [mag]. *)
Lemma fienup_setup_default_mask (a : args) (st st0 : state) (l0 : locals) :
  valid_args st a ->
  mask a = None ->
  fienup_setup a st = (st0, OK l0) ->
  deref st0 (l_mask l0) = np_ones (shape (deref st (mag a))).
Proof.
  intros (Vm & Vp & _) Ek H. unfold fienup_setup in H. rewrite Ek in H.
  unfold valid_opt_ref, deref in *.
  destruct (init_phi a) as [p|]; unfold valid_ref in *; minv H;
    unfold ret in H; inversion H; subst; clear H;
    cbn [l_mask heap]; heap_norm; reflexivity.
Qed.

(** The mask the loop reads, in terms of the caller's arguments. *)
Lemma fienup_run_mask (a : args) (st : state) (k : nat) (st1 : state) (l : locals) :
  valid_args st a ->
  fienup_run k a st = (st1, OK l) ->
  (forall m, mask a = Some m -> deref st1 (l_mask l) = deref st m) /\
  (mask a = None -> deref st1 (l_mask l) = np_ones (shape (deref st (mag a)))).
Proof.
  intros Va E.
  destruct (@fienup_run_facts a st k st1 l Va E) as (st0 & l0 & E0 & EL & HI0 & _).
  destruct (fienup_loop_facts _ _ HI0 EL) as (_ & _ & _ & Ek & _).
  pose proof HI0 as (_ & _ & Hkx & Hx & _).
  destruct (@fienup_loop_grows (S (l_mask l0)) a k 1 l0 Hkx st0 ltac:(lia)) as (_ & F & _).
  rewrite EL in F. cbn [fst] in F.
  assert (D : deref st1 (l_mask l) = deref st0 (l_mask l0)).
  { rewrite Ek. unfold deref. apply (@nth_firstn_eq _ _ _ _ _ _ F). lia. }
  split.
  - intros m Em.
    destruct (fienup_setup_inv Va E0) as (_ & _ & _ & _ & _ & _ & _ & _ & _ & F0 & K & _).
    rewrite D, (K m Em). unfold deref.
    destruct Va as (_ & _ & Vk). rewrite Em in Vk. cbn in Vk. unfold valid_ref in Vk.
    transitivity (nth m (firstn (length (heap st)) (heap st0)) empty_array);
      [|now rewrite F0].
    rewrite nth_firstn. apply Nat.ltb_lt in Vk. now rewrite Vk.
  - intros Em. rewrite D. now apply fienup_setup_default_mask.
Qed.

Lemma truthy_one : truthy 1 = true.
Proof. unfold truthy, Reqb. destruct (Req_dec_T 1 0); [lra|reflexivity]. Qed.

(** X10.  The result of mode gs meets the object-domain constraints as the
    routine tests them: every entry of the returned [x] is either the [0]
    of line 100 or a value for which the test [x < threshhold] fails, and
    it is [0] wherever a supplied mask is [0]. *)
Theorem fienup_gs_constraints (a : args) (st st' : state) (xl : loc) (errs : list R) :
  valid_args st a ->
  mode a = "gs"%string ->
  fienup_phase_retrieval a st = (st', OK (xl, errs)) ->
  forall q, q < size_of (shape (deref st' xl)) ->
    (flat (deref st' xl) q = 0%R \/ Rltb (flat (deref st' xl) q) (threshhold a) = false) /\
    (forall m, mask a = Some m ->
       bflat (deref st m) (shape (deref st' xl)) q = 0%R ->
       flat (deref st' xl) q = 0%R).
Proof.
  intros Va Hgs H q Hq.
  destruct (fienup_last_pass Va H) as (k & st1 & l & l' & _ & E1 & E2 & _ & -> & _).
  destruct (@fienup_run_mask a st k st1 l Va E1) as (Km & _).
  destruct (@fienup_iteration_inv a st k st1 l st' l' Va E1 E2)
    as (yc & _ & _ & _ & _ & _ & _ & En).
  rewrite En in Hq |- *. cbn [shape tabulate] in Hq |- *.
  rewrite !flat_tabulate by exact Hq.
  assert (B : takes_baseline a = true) by (unfold takes_baseline, is_mode; now rewrite Hgs).
  assert (Cg : forall u v, correction a u v = 0%R).
  { intros u v. unfold correction, is_mode. now rewrite Hgs. }
  rewrite B, Cg. unfold violates.
  destruct (truthy (bflat (deref st1 (l_mask l)) (shape (np_real yc)) q)) eqn:Et;
    destruct (Rltb (flat (np_real yc) q) (threshhold a)) eqn:El; cbn [andb orb negb];
    (split; [auto|]);
    intros m Em Hz; try reflexivity;
    rewrite (Km m Em), Hz, truthy_zero in Et; discriminate Et.
Qed.

Lemma fienup_gs_constraints_witness :
  let a := Example.call "gs" 1 in
  (valid_args Example.st0 a /\ mode a = "gs"%string) /\
  exists st' xl errs,
    fienup_phase_retrieval a Example.st0 = (st', OK (xl, errs)) /\
    shape (deref st' xl) = (1, 1) /\ flat (deref st' xl) 0 = 0%R.
Proof.
  intros a.
  assert (Va : valid_args Example.st0 a) by (subst a; solve_valid).
  split; [split; [exact Va|reflexivity]|].
  assert (Hm : valid_mode a) by (right; right; right; reflexivity).
  destruct (@example_returns "gs"%string 1%R Hm ltac:(lra)) as (st' & xl & errs & E & Sx).
  exists st', xl, errs. split; [exact E|].
  split; [exact Sx|].
  assert (Hq : 0 < size_of (shape (deref st' xl))) by (rewrite Sx; cbn; lia).
  destruct (@fienup_gs_constraints a Example.st0 st' xl errs Va eq_refl E 0 Hq) as (_ & Z).
  apply (Z 2 eq_refl). rewrite Sx. reflexivity.
Defined.

(** X11.  Without a mask (the default, an all-ones array of the shape of
    [mag]) the violation set of every pass is just the set of pixels where
    [y] is below [threshhold]. *)
Theorem fienup_default_mask_violations (a : args) (st : state) (k : nat) (st1 : state)
    (l : locals) (st2 : state) (l' : locals) :
  valid_args st a ->
  mask a = None ->
  fienup_run k a st = (st1, OK l) ->
  fienup_step a (S k) l st1 = (st2, OK l') ->
  exists (yc : ndarray C) (indices : ndarray bool),
    ifft2 (y_hat l) = OK yc /\
    violations (np_real yc) (threshhold a) (deref st1 (l_mask l)) = OK indices /\
    shape indices = shape yc /\
    forall q, q < size_of (shape yc) ->
      flat indices q = Rltb (flat (np_real yc) q) (threshhold a).
Proof.
  intros Va Ek E1 E2.
  destruct (@fienup_run_mask a st k st1 l Va E1) as (_ & Kn).
  destruct (@fienup_run_facts a st k st1 l Va E1)
    as (st0 & l0 & _ & _ & _ & HI & _ & _ & Dm & _).
  destruct HI as (_ & _ & _ & _ & _ & Bs & _).
  destruct (@fienup_iteration_inv a st k st1 l st2 l' Va E1 E2)
    as (yc & Ey & Ev & _).
  exists yc. eexists. split; [exact Ey|]. split; [exact Ev|].
  split; [reflexivity|]. intros q Hq.
  cbn [shape np_real map1 tabulate]. rewrite flat_tabulate by exact Hq.
  unfold violates. cbn [shape np_real map1 tabulate].
  apply ifft2_shape in Ey. destruct Ey as [Sy _].
  assert (M1 : bflat (deref st1 (l_mask l)) (shape yc) q = 1%R).
  { rewrite (Kn Ek). unfold bflat, np_ones. cbn [shape tabulate].
    rewrite flat_tabulate; [reflexivity|].
    apply bsrc_lt; [|exact Hq]. rewrite <- Dm, Sy. exact Bs. }
  rewrite M1, truthy_one. cbn [negb]. now rewrite andb_true_r, orb_false_r.
Qed.

Lemma fienup_default_mask_violations_witness :
  let a := set_mode "hybrid" {| mag := 0; init_phi := Some 1; mask := None;
                                threshhold := 0%R; beta := 1%R; steps := 1%Z;
                                mode := "hybrid"; verbose := false |} in
  (valid_args Example.st0 a /\ mask a = None) /\
  exists st1 l st2 l' yc indices,
    fienup_run 0 a Example.st0 = (st1, OK l) /\
    fienup_step a 1 l st1 = (st2, OK l') /\
    ifft2 (y_hat l) = OK yc /\
    violations (np_real yc) (threshhold a) (deref st1 (l_mask l)) = OK indices.
Proof.
  intros a.
  assert (Va : valid_args Example.st0 a) by (subst a; solve_valid).
  split; [split; [exact Va|reflexivity]|].
  assert (Hm : valid_mode a) by (right; right; left; reflexivity).
  assert (Hb : (0 < beta a)%R) by (cbn; lra).
  assert (Hs : (0 < steps a)%Z) by (cbn; lia).
  assert (Hk : mask_fits Example.st0 a) by (intros m [=]).
  destruct (@fienup_run_returns a Example.st0 1 (1, 1) Va Hb Hs Hm Hk)
    as (st2 & l' & E & _); try reflexivity.
  rewrite fienup_run_succ in E. apply bind_ok_inv in E.
  destruct E as (l & st1 & E1 & E2).
  destruct (@fienup_default_mask_violations a Example.st0 0 st1 l st2 l' Va eq_refl E1 E2)
    as (yc & idx & Ey & Ev & _).
  exists st1, l, st2, l', yc, idx. auto.
Defined.

(** X12.  Without [init_phi] the call draws exactly one sample per pixel of
    [mag] from the random generator, once, before the loop: the generator
    is left advanced by [H * W] outputs, whatever the number of iterations,
    and the initial [y_hat] is [mag * exp(1j * 2 pi r)] for the array [r]
    of these samples. *)
Theorem fienup_random_phase (a : args) (st : state) (k : nat) (st' : state) (l : locals) :
  valid_args st a ->
  init_phi a = None ->
  fienup_run k a st = (st', OK l) ->
  (forall j, rng st' j = rng st (j + size_of (shape (deref st (mag a))))) /\
  (k = 0 ->
   mul_real_complex (deref st (mag a))
     (np_exp_1j (map1 (Rmult (2 * PI)) (tabulate (shape (deref st (mag a))) (rng st))))
   = OK (y_hat l)).
Proof.
  intros Va Ep E.
  destruct (@fienup_run_facts a st k st' l Va E) as (st0 & l0 & E0 & EL & HI0 & _).
  destruct (fienup_setup_random_phase Va Ep E0) as (R0 & Y0).
  destruct (fienup_loop_facts _ _ HI0 EL) as (_ & _ & _ & _ & _ & _ & Rl & _).
  split.
  - intros j. rewrite Rl. apply R0.
  - intros ->. cbn in EL. unfold ret in EL. inversion EL; subst. exact Y0.
Qed.

Lemma fienup_random_phase_witness :
  let a := {| mag := 5; init_phi := None; mask := None; threshhold := 0%R;
              beta := 1%R; steps := 2%Z; mode := "hybrid"; verbose := false |} in
  let st := with_rng (fun k => INR k) Example.st0 in
  (valid_args st a /\ init_phi a = None) /\
  exists st' l, fienup_run 2 a st = (st', OK l) /\ rng st' 0 = 9%R.
Proof.
  intros a st.
  assert (Va : valid_args st a) by (subst a st; solve_valid).
  split; [split; [exact Va|reflexivity]|].
  assert (Hm : valid_mode a) by (right; right; left; reflexivity).
  assert (Hb : (0 < beta a)%R) by (cbn; lra).
  assert (Hs : (0 < steps a)%Z) by (cbn; lia).
  assert (Hk : mask_fits st a) by (intros m [=]).
  destruct (@fienup_run_returns a st 2 (3, 3) Va Hb Hs Hm Hk)
    as (st' & l & E & _); try reflexivity.
  exists st', l. split; [exact E|].
  destruct (@fienup_random_phase a st 2 st' l Va eq_refl E) as (Rj & _).
  rewrite Rj. cbn. lra.
Defined.

(** The initialisation does not look at the mode beyond checking it. *)
Lemma fienup_setup_hybrid_oo (a : args) (st : state) :
  fienup_setup (set_mode "hybrid" a) st = fienup_setup (set_mode "output-output" a) st.
Proof. reflexivity. Qed.

(** On a pass that starts without a previous iterate, [x_p], [x] and [y]
    are one array, and the hybrid update reads what the output-output
    update reads. *)
Lemma fienup_step_hybrid_oo_first (a : args) (i : nat) (l : locals) (st : state) :
  x_p l = None ->
  fienup_step (set_mode "hybrid" a) i l st
  = fienup_step (set_mode "output-output" a) i l st.
Proof.
  intros Hp. unfold fienup_step. rewrite Hp. reflexivity.
Qed.

(** X13.  With [steps = 1] the modes 'hybrid' and 'output-output' are the
    same computation: on the first pass [x_p] is [y], so the hybrid update
    [x_p[indices] - beta * y[indices]] is the output-output update
    [y[indices] - beta * y[indices]].  The two calls end in the same state
    with the same result, or raise the same exception. *)
Theorem fienup_hybrid_first_pass (a : args) (st : state) :
  steps a = 1%Z ->
  fienup_phase_retrieval (set_mode "hybrid" a) st
  = fienup_phase_retrieval (set_mode "output-output" a) st.
Proof.
  intros Hs. unfold fienup_phase_retrieval. cbn [steps set_mode]. rewrite Hs.
  change (Z.to_nat 1) with 1. unfold fienup_run, bind at 1 3.
  unfold bind at 1 2.
  rewrite fienup_setup_hybrid_oo.
  destruct (fienup_setup (set_mode "output-output" a) st) as [st0 [l0|e]] eqn:E0;
    [|reflexivity].
  destruct (@fienup_setup_quiet _ _ _ _ E0) as (_ & Hp).
  cbn [fienup_loop]. unfold bind at 1 2.
  rewrite (@fienup_step_hybrid_oo_first a 1 l0 st0 Hp). reflexivity.
Qed.

Lemma fienup_hybrid_first_pass_witness :
  let a := {| mag := 0; init_phi := Some 1; mask := Some 2; threshhold := 0%R;
              beta := (1 / 2)%R; steps := 1%Z; mode := "gs"; verbose := true |} in
  steps a = 1%Z /\
  fienup_phase_retrieval (set_mode "hybrid" a) Example.st0
  = fienup_phase_retrieval (set_mode "output-output" a) Example.st0.
Proof.
  intros a. split; [reflexivity|].
  apply (@fienup_hybrid_first_pass a Example.st0). reflexivity.
Defined.
